(** * tmop-fit-position: fitting of selected mesh nodes to given positions

    A shallow embedding of [miniapps/meshing/tmop-fit-position.cpp] and of
    the TMOP components it drives.

    - [Arr]    : MFEM [Array<T>] / [Vector] accessed with an [int] index.
    - [Driver] : the body of [main], statement by statement.  C++ [int] is
                 [Z], C++ [double] is the kernel's binary64 [float]; library
                 services that [main] calls are fields of a [World].
    - [Tmop]   : the quality metrics, the target constructor and the
                 safeguarded Newton iteration, over the rationals.

    The only arithmetic on [int] in [main] computes loop counters and the
    positions [nd + j] and [2 * nd + j] in the DOF table of one boundary
    element; an index outside a table is an access out of bounds before
    it could wrap around. *)

From Stdlib Require Import ZArith QArith Qminmax Qabs Lia Lqa.
From Stdlib Require Import Floats.PrimFloat.
From stdpp Require Import base option list strings.

#[local] Set Warnings "-inexact-float".
#[local] Open Scope Z_scope.

(** ** Arrays indexed by a C++ [int] *)

Module Arr.

(** [a[i]] as an r-value.  MFEM checks the bounds only in debug builds; an
    access outside [0, Size()) is undefined behaviour, rendered as [None]. *)
Definition at_ {A} (a : list A) (i : Z) : option A :=
  if decide (0 ≤ i) then a !! Z.to_nat i else None.

(** [a[i] = v]. *)
Definition put {A} (a : list A) (i : Z) (v : A) : option (list A) :=
  if decide (0 ≤ i < Z.of_nat (length a)) then Some (<[Z.to_nat i := v]> a)
  else None.

(** [for (int i = 0; i < n; i++) body], in the option monad: the loop stops
    at the first failing iteration. *)
Definition for_loop {S} (n : Z) (body : Z → S → option S) (s : S) : option S :=
  foldl (λ acc i, acc ≫= body i) (Some s) (seqZ 0 n).

End Arr.

(** ** The driver *)

Module Driver.
Import Arr.

(** *** Command line *)

Record Options := mkOptions {
  mesh_file : string;
  rs_levels : Z;
  mesh_poly_deg : Z;
  quad_order : Z }.

(** The initial values of the four option variables of [main]. *)
Definition default_options : Options :=
  {| mesh_file := "square01.mesh"; rs_levels := 2;
     mesh_poly_deg := 2; quad_order := 5 |}.

(** *** Mesh and finite-element space, as far as [main] observes them *)

Record Mesh := mkMesh {
  Dimension : Z;
  GetNBE : Z;
  (** [GetBdrElement(e)->GetAttribute()] *)
  GetBdrAttribute : Z → Z }.

Inductive GeomType := SEGMENT | TRIANGLE | SQUARE | TETRAHEDRON | CUBE.

Inductive FiniteElementCollection :=
| QuadraticPosFECollection
| H1_FECollection (p : Z) (dim : Z).

Record FESpace := mkFESpace {
  GetNDofs : Z;
  GetVSize : Z;
  (** [GetBE(e)->GetDof()] *)
  GetBEDof : Z → Z;
  GetBdrElementVDofs : Z → list Z;
  (** [GetFE(0)->GetGeomType()] *)
  GetGeomType0 : GeomType }.

Definition IntegrationRule : Type := GeomType * Z.

(** *** TMOP objects built by [main] *)

Inductive TMOP_QualityMetric := TMOP_Metric_002 | TMOP_Metric_302.

Inductive TargetType :=
| IDEAL_SHAPE_UNIT_SIZE
| IDEAL_SHAPE_EQUAL_SIZE
| IDEAL_SHAPE_GIVEN_SIZE
| GIVEN_SHAPE_AND_SIZE
| GIVEN_FULL.

Record TargetConstructor := mkTarget { target_type : TargetType }.

(** What [EnableSurfaceFitting(pos, smarker, coeff)] hands to the integrator.
    The integrator keeps references to [coord_target] and [fit_marker];
    [main] writes neither of them afterwards, so their values are recorded. *)
Record SurfaceFitting := mkSurfaceFitting {
  surf_fit_pos : list float;
  surf_fit_marker : list bool;
  surf_fit_coeff : float }.

Record TMOP_Integrator := mkIntegrator {
  integ_metric : TMOP_QualityMetric;
  integ_target : TargetConstructor;
  surf_fit : option SurfaceFitting }.

Definition EnableSurfaceFitting (pos : list float) (smarker : list bool)
    (coeff : float) (integ : TMOP_Integrator) : TMOP_Integrator :=
  {| integ_metric := integ_metric integ;
     integ_target := integ_target integ;
     surf_fit := Some (mkSurfaceFitting pos smarker coeff) |}.

Record ParNonlinearForm := mkForm {
  form_space : FESpace;
  domain_integrators : list TMOP_Integrator }.

Definition AddDomainIntegrator (i : TMOP_Integrator) (a : ParNonlinearForm)
  : ParNonlinearForm :=
  {| form_space := form_space a;
     domain_integrators := domain_integrators a ++ [i] |}.

(** *** Iterative solvers and their setters *)

Record IterativeSolver := mkIterative {
  max_iter : Z;
  rel_tol : float;
  abs_tol : float;
  print_level : Z }.

Definition SetMaxIter (n : Z) (s : IterativeSolver) : IterativeSolver :=
  {| max_iter := n; rel_tol := rel_tol s; abs_tol := abs_tol s;
     print_level := print_level s |}.
Definition SetRelTol (t : float) (s : IterativeSolver) : IterativeSolver :=
  {| max_iter := max_iter s; rel_tol := t; abs_tol := abs_tol s;
     print_level := print_level s |}.
Definition SetAbsTol (t : float) (s : IterativeSolver) : IterativeSolver :=
  {| max_iter := max_iter s; rel_tol := rel_tol s; abs_tol := t;
     print_level := print_level s |}.
Definition SetPrintLevel (l : Z) (s : IterativeSolver) : IterativeSolver :=
  {| max_iter := max_iter s; rel_tol := rel_tol s; abs_tol := abs_tol s;
     print_level := l |}.

Record MINRESSolver := mkMINRES { minres_controls : IterativeSolver }.

Definition on_minres (f : IterativeSolver → IterativeSolver) (m : MINRESSolver)
  : MINRESSolver := {| minres_controls := f (minres_controls m) |}.

Record TMOPNewtonSolver := mkNewton {
  newton_controls : IterativeSolver;
  newton_ir : IntegrationRule;
  newton_type : Z;
  oper : option ParNonlinearForm;
  prec : option MINRESSolver;
  adaptive_surf_fit : bool;
  surf_fit_max_threshold : float }.

Definition on_newton (f : IterativeSolver → IterativeSolver)
    (s : TMOPNewtonSolver) : TMOPNewtonSolver :=
  {| newton_controls := f (newton_controls s);
     newton_ir := newton_ir s; newton_type := newton_type s;
     oper := oper s; prec := prec s;
     adaptive_surf_fit := adaptive_surf_fit s;
     surf_fit_max_threshold := surf_fit_max_threshold s |}.

Definition SetOperator (a : ParNonlinearForm) (s : TMOPNewtonSolver)
  : TMOPNewtonSolver :=
  {| newton_controls := newton_controls s;
     newton_ir := newton_ir s; newton_type := newton_type s;
     oper := Some a; prec := prec s;
     adaptive_surf_fit := adaptive_surf_fit s;
     surf_fit_max_threshold := surf_fit_max_threshold s |}.

Definition SetPreconditioner (m : MINRESSolver) (s : TMOPNewtonSolver)
  : TMOPNewtonSolver :=
  {| newton_controls := newton_controls s;
     newton_ir := newton_ir s; newton_type := newton_type s;
     oper := oper s; prec := Some m;
     adaptive_surf_fit := adaptive_surf_fit s;
     surf_fit_max_threshold := surf_fit_max_threshold s |}.

Definition EnableAdaptiveSurfaceFitting (s : TMOPNewtonSolver)
  : TMOPNewtonSolver :=
  {| newton_controls := newton_controls s;
     newton_ir := newton_ir s; newton_type := newton_type s;
     oper := oper s; prec := prec s;
     adaptive_surf_fit := true;
     surf_fit_max_threshold := surf_fit_max_threshold s |}.

Definition SetTerminationWithMaxSurfaceFittingError (max_error : float)
    (s : TMOPNewtonSolver) : TMOPNewtonSolver :=
  {| newton_controls := newton_controls s;
     newton_ir := newton_ir s; newton_type := newton_type s;
     oper := oper s; prec := prec s;
     adaptive_surf_fit := adaptive_surf_fit s;
     surf_fit_max_threshold := max_error |}.

(** *** Library services

    Everything [main] obtains from MFEM, MPI or libm.  A partial service
    ([None]) stands for a call that does not return ([MFEM_ABORT]). *)

Record World := mkWorld {
  WorldRank : Z;
  (** [args.Parse()] on the registered options; the flag is [args.Good()]. *)
  Parse : list string → Options → Options * bool;
  ReadMesh : string → option Mesh;
  UniformRefinement : Mesh → Mesh;
  (** [ParFiniteElementSpace(&pmesh, fec, vdim)] *)
  NodalSpace : Mesh → FiniteElementCollection → Z → FESpace;
  (** the content of [coord] after [SetNodalGridFunction(&coord)] *)
  NodalCoords : Mesh → FESpace → list float;
  sin : float → float;
  cos : float → float;
  (** the objects the library constructors return *)
  new_MINRESSolver : MINRESSolver;
  new_TMOPNewtonSolver : IntegrationRule → Z → TMOPNewtonSolver;
  (** [SetTrueVector(); GetTrueVector()] and [SetFromTrueVector()] *)
  GetTrueVector : FESpace → list float → list float;
  SetFromTrueVector : FESpace → list float → list float;
  (** [solver.Mult(b, x)]: the new content of [x] *)
  Mult : TMOPNewtonSolver → list float → list float → option (list float) }.

(** *** Program variables

    The grid functions and the marker array declared by [main].  [coord] is
    the nodal grid function of the mesh ([SetNodalGridFunction(&coord)]):
    the mesh nodes are this very vector.  [x0] is copy-constructed from it
    and owns its data. *)

Record Vars := mkVars {
  coord : list float;
  x0 : list float;
  fit_marker : list bool;
  fit_marker_vis_gf : list float;
  coord_target : list float }.

Definition set_coord (c : list float) (v : Vars) : Vars :=
  {| coord := c; x0 := x0 v; fit_marker := fit_marker v;
     fit_marker_vis_gf := fit_marker_vis_gf v;
     coord_target := coord_target v |}.

Inductive Event :=
| PrintUsage
| PrintOptions (args : Options)
| MeshRead (file : string)
| SpaceBuilt (fec : FiniteElementCollection) (vdim : Z)
| VisualizeField (title : string) (mesh_nodes gf : list float) (keys : string)
| NewtonSolve (solver : TMOPNewtonSolver) (x : list float)
| VisualizeMesh (title : string) (mesh_nodes : list float).

Inductive Outcome :=
| Returned (code : Z)
| Aborted.

(** What a run of [main] leaves behind: the calls it made, the program
    variables after lines 92, 126, 129, 133 and 170, and how it ended. *)
Record Run := mkRun {
  events : list Event;
  history : list Vars;
  outcome : Outcome }.

Definition M_PI : float := 3.14159265358979323846%float.

(** Lines 72-78. The second component is [mesh_poly_deg] afterwards. *)
Definition select_fec (mesh_poly_deg dim : Z) : FiniteElementCollection * Z :=
  if decide (mesh_poly_deg ≤ 0) then (QuadraticPosFECollection, 2)
  else (H1_FECollection mesh_poly_deg dim, mesh_poly_deg).

(** Lines 81-92. *)
Definition declare_fields (pfes_mesh : FESpace) (nodes : list float) : Vars :=
  {| coord := nodes;
     x0 := nodes;
     fit_marker := replicate (Z.to_nat (GetNDofs pfes_mesh)) false;
     fit_marker_vis_gf := replicate (Z.to_nat (GetVSize pfes_mesh)) 0%float;
     coord_target := nodes |}.

Section FitSetup.
Variable w : World.
Variable dim : Z.

(** Line 102: the z coordinate of DOF [j] of a boundary element. *)
Definition dof_z (v : Vars) (nd : Z) (vdofs : list Z) (j : Z) : option float :=
  if decide (dim = 2) then Some 0%float
  else at_ vdofs (2 * nd + j) ≫= at_ (coord v).

(** Lines 100-124: the body of the loop over the DOFs of one boundary
    element.  [coord] is only read, so [coord(j_x)] and [coord(j_y)] in
    the conditions are the locals [x] and [y]. *)
Definition fit_node (nd attr : Z) (vdofs : list Z) (j : Z) (v : Vars)
  : option Vars :=
  j_x ← at_ vdofs j;
  j_y ← at_ vdofs (nd + j);
  x ← at_ (coord v) j_x;
  y ← at_ (coord v) j_y;
  z ← dof_z v nd vdofs j;
  marker ← put (fit_marker v) j_x true;
  vis ← put (fit_marker_vis_gf v) j_x 1%float;
  target ←
    (if decide (attr = 2) then
       if (y <? 0.5)%float then
         put (coord_target v) j_y
             (0.1 * sin w (4 * M_PI * x) * cos w (M_PI * z))%float
       else if (x <? 0.5)%float then
         put (coord_target v) j_y (1.0 + 0.1 * sin w (2 * M_PI * x))%float
       else
         put (coord_target v) j_y
             (1.0 + 0.1 * sin w (2 * M_PI * (x + 0.5)))%float
     else put (coord_target v) j_y y);
  Some {| coord := coord v; x0 := x0 v; fit_marker := marker;
          fit_marker_vis_gf := vis; coord_target := target |}.

(** The value that lines 107-120 assign to the y target of a DOF at
    [(x, y, z)] on a boundary element with attribute 2. *)
Definition boundary_profile (x y z : float) : float :=
  if (y <? 0.5)%float then (0.1 * sin w (4 * M_PI * x) * cos w (M_PI * z))%float
  else if (x <? 0.5)%float then (1.0 + 0.1 * sin w (2 * M_PI * x))%float
  else (1.0 + 0.1 * sin w (2 * M_PI * (x + 0.5)))%float.

(** Lines 93-126. *)
Definition fit_bdr_element (pmesh : Mesh) (pfes_mesh : FESpace) (e : Z)
  : Vars → option Vars :=
  let nd := GetBEDof pfes_mesh e in
  let attr := GetBdrAttribute pmesh e in
  let vdofs := GetBdrElementVDofs pfes_mesh e in
  for_loop nd (fit_node nd attr vdofs).

Definition fit_setup (pmesh : Mesh) (pfes_mesh : FESpace)
  : Vars → option Vars :=
  for_loop (GetNBE pmesh) (fit_bdr_element pmesh pfes_mesh).
End FitSetup.

(** Lines 136-143. *)
Definition select_metric (dim : Z) : TMOP_QualityMetric :=
  if decide (dim = 2) then TMOP_Metric_002 else TMOP_Metric_302.

Definition tmop_setup (dim : Z) (v : Vars) : TMOP_Integrator :=
  let metric := select_metric dim in
  let target := mkTarget IDEAL_SHAPE_UNIT_SIZE in
  let fit_weight := 100.0%float in
  let integ := mkIntegrator metric target None in
  EnableSurfaceFitting (coord_target v) (fit_marker v) fit_weight integ.

(** Lines 146-149. *)
Definition minres_setup (w : World) : MINRESSolver :=
  let minres := new_MINRESSolver w in
  let minres := on_minres (SetMaxIter 100) minres in
  let minres := on_minres (SetRelTol 1e-12) minres in
  let minres := on_minres (SetAbsTol 0.0) minres in
  minres.

(** Lines 152-164. *)
Definition newton_setup (w : World) (pfes_mesh : FESpace) (quad_order : Z)
    (integ : TMOP_Integrator) (minres : MINRESSolver) : TMOPNewtonSolver :=
  let a := AddDomainIntegrator integ (mkForm pfes_mesh []) in
  let ir := (GetGeomType0 pfes_mesh, quad_order) in
  let solver := new_TMOPNewtonSolver w ir 0 in
  let solver := SetOperator a solver in
  let solver := SetPreconditioner minres solver in
  let solver := on_newton (SetPrintLevel 1) solver in
  let solver := on_newton (SetMaxIter 200) solver in
  let solver := on_newton (SetRelTol 1e-10) solver in
  let solver := on_newton (SetAbsTol 0.0) solver in
  let solver := EnableAdaptiveSurfaceFitting solver in
  let solver := SetTerminationWithMaxSurfaceFittingError 1e-2 solver in
  solver.

(** Lines 65-69: the refined mesh. *)
Definition load_mesh (w : World) (args : Options) : option Mesh :=
  Nat.iter (Z.to_nat (rs_levels args)) (UniformRefinement w)
    <$> ReadMesh w (mesh_file args).

(** Lines 72-79: the nodal space of the mesh. *)
Definition mesh_space (w : World) (args : Options) (pmesh : Mesh) : FESpace :=
  let dim := Dimension pmesh in
  let fec_mesh := (select_fec (mesh_poly_deg args) dim).1 in
  NodalSpace w pmesh fec_mesh dim.

(** [main], lines 35-178. *)
Definition main (w : World) (argv : list string) : Run :=
  let myid := WorldRank w in
  let '(args, good) := Parse w argv default_options in
  if negb good then
    mkRun (if decide (myid = 0) then [PrintUsage] else []) [] (Returned 1)
  else
    let ev := if decide (myid = 0) then [PrintOptions args] else [] in
    let ev := ev ++ [MeshRead (mesh_file args)] in
    match load_mesh w args with
    | None => mkRun ev [] Aborted
    | Some pmesh =>
      let dim := Dimension pmesh in
      let pfes_mesh := mesh_space w args pmesh in
      let fec_mesh := (select_fec (mesh_poly_deg args) dim).1 in
      let ev := ev ++ [SpaceBuilt fec_mesh dim] in
      let v1 := declare_fields pfes_mesh (NodalCoords w pmesh pfes_mesh) in
      match fit_setup w dim pmesh pfes_mesh v1 with
      | None => mkRun ev [v1] Aborted
      | Some v2 =>
        let v3 := set_coord (coord_target v2) v2 in
        let ev := ev ++ [VisualizeField "Target positions (DOFS with value 1)"
                           (coord v3) (fit_marker_vis_gf v3)
                           (if decide (dim = 2) then "Rjm" else "")] in
        let v4 := set_coord (x0 v3) v3 in
        let integ := tmop_setup dim v4 in
        let minres := minres_setup w in
        let solver :=
          newton_setup w pfes_mesh (quad_order args) integ minres in
        let x := GetTrueVector w pfes_mesh (coord v4) in
        let ev := ev ++ [NewtonSolve solver x] in
        match Mult w solver [] x with
        | None => mkRun ev [v1; v2; v3; v4] Aborted
        | Some x' =>
          let v5 := set_coord (SetFromTrueVector w pfes_mesh x') v4 in
          mkRun (ev ++ [VisualizeMesh "Final mesh" (coord v5)])
                [v1; v2; v3; v4; v5] (Returned 0)
        end
      end
    end.

End Driver.

(** ** The TMOP components behind the driver

    The metric classes, the target constructor and the Newton solver are
    library code.  They are modelled here from the design specification,
    over the rationals. *)

Module Tmop.
#[local] Open Scope Q_scope.

Definition Matrix : Type := list (list Q).

Definition tabulate (d : nat) (f : nat → nat → Q) : Matrix :=
  map (λ i, map (f i) (seq 0 d)) (seq 0 d).

Definition entry (T : Matrix) (i j : nat) : Q := nth j (nth i T []) 0.

Definition Qsum (l : list Q) : Q := foldr Qplus 0 l.

Definition identity (d : nat) : Matrix :=
  tabulate d (λ i j, if Nat.eqb i j then 1 else 0).

Definition mmul (d : nat) (A B : Matrix) : Matrix :=
  tabulate d (λ i j, Qsum (map (λ k, entry A i k * entry B k j) (seq 0 d))).

(** Squared Frobenius norm. *)
Definition fnorm2 (T : Matrix) : Q := Qsum (map (λ t, t * t) (concat T)).

Definition det (T : Matrix) : Q :=
  match T with
  | [[a; b]; [c; d]] => a * d - b * c
  | [[a; b; c]; [d; e; f]; [g; h; i]] =>
      a * (e * i - f * h) - b * (d * i - f * g) + c * (d * h - e * g)
  | _ => 0
  end.

(** Adjugate (transposed cofactors). *)
Definition adj (T : Matrix) : Matrix :=
  match T with
  | [[a; b]; [c; d]] => [[d; - b]; [- c; a]]
  | [[a; b; c]; [d; e; f]; [g; h; i]] =>
      [[e * i - f * h; c * h - b * i; b * f - c * e];
       [f * g - d * i; a * i - c * g; c * d - a * f];
       [d * h - e * g; b * g - a * h; a * e - b * d]]
  | _ => []
  end.

Definition inv (T : Matrix) : Matrix := map (map (λ t, t / det T)) (adj T).

(** Modelled from the spec: the quality metrics (class [TMOP_Metric_002],
    [TMOP_Metric_302]; sections 3 and 4.1).  The 2D shape metric is
    [1/2 |T|^2 / det T - 1], the 3D shape metric is
    [|T|^2 |T^-1|^2 / 9 - 1]; for [det T <= 0] the metric signals an
    invalid Jacobian instead of returning a value. *)
Definition EvalW (m : Driver.TMOP_QualityMetric) (T : Matrix) : option Q :=
  if Qlt_le_dec 0 (det T) then
    Some match m with
         | Driver.TMOP_Metric_002 => (1 # 2) * fnorm2 T / det T - 1
         | Driver.TMOP_Metric_302 => fnorm2 T * fnorm2 (inv T) / 9 - 1
         end
  else None.

(** Modelled from the spec: the target constructor (class
    [TargetConstructor]; section 4.2).  For an element [e] and a quadrature
    point [q] it returns the target Jacobian; the only variant the core
    requires is [IDEAL_SHAPE_UNIT_SIZE], whose target is the identity. *)
Definition ComputeElementTargets (t : Driver.TargetType) (d : nat)
    (e q : nat) : option Matrix :=
  match t with
  | Driver.IDEAL_SHAPE_UNIT_SIZE => Some (identity d)
  | _ => None
  end.

(** Modelled from the spec: what the finite-element machinery, the
    application and the inner linear solver supply to the Newton solver
    (the external collaborators of section 1, the inner solver of section
    4.5, the fitting setup of section 4.7). *)
Record Problem := mkProblem {
  metric : Driver.TMOP_QualityMetric;
  target : Driver.TargetType;
  space_dim : nat;
  NE : nat;
  (** quadrature weights, one per quadrature point *)
  quad_weights : list Q;
  (** Jacobian of the geometric map of element [e] at point [q] *)
  Jacobian : list Q → nat → nat → Matrix;
  (** target coordinates and marker, one entry per scalar DOF *)
  fit_target : list Q;
  marker : list bool;
  (** norm of the global residual at [x] for weight [w] *)
  residual_norm : list Q → Q → Q;
  (** approximate solution of [H d = -r] at [x] for weight [w] *)
  newton_direction : list Q → Q → list Q }.

(** Modelled from the spec: the parameters of section 4.6 (the iteration
    controls of [TMOPNewtonSolver]). *)
Record Controls := mkControls {
  max_iter : nat;
  rtol : Q;
  atol : Q;
  (** surface-fit termination threshold *)
  eps_star : Q;
  adaptive : bool;
  initial_weight : Q;
  weight_ceiling : Q;
  max_halvings : nat }.

(** Modelled from the spec: the TMOP integrator (section 4.3), reduced to
    the objective.  At a quadrature point it forms [T = J J*^-1]; a point
    with [det J <= 0] raises the invalid-Jacobian condition ([None]). *)
Definition point_energy (P : Problem) (x : list Q) (e q : nat) (ω : Q)
  : option Q :=
  let J := Jacobian P x e q in
  if Qlt_le_dec 0 (det J) then
    Jt ← ComputeElementTargets (target P) (space_dim P) e q;
    μ ← EvalW (metric P) (mmul (space_dim P) J (inv Jt));
    Some (ω * μ * det Jt)
  else None.

Fixpoint sum_points (l : list (option Q)) : option Q :=
  match l with
  | [] => Some 0
  | o :: l => a ← o; b ← sum_points l; Some (a + b)
  end.

(** Modelled from the spec: the shape term of the objective, summed over
    the quadrature points of all elements; it is undefined as soon as one
    point raises the invalid-Jacobian condition. *)
Definition quality_energy (P : Problem) (x : list Q) : option Q :=
  sum_points
    (flat_map (λ e, imap (point_energy P x e) (quad_weights P))
       (seq 0 (NE P))).

(** Modelled from the spec: the fitting penalty of section 3 without its
    weight, the sum over the marked DOFs of [(x_i - x*_i)^2]. *)
Fixpoint fit_squares (M : list bool) (x xs : list Q) : Q :=
  match M, x, xs with
  | m :: M, a :: x, b :: xs =>
      (if m then (a - b) * (a - b) else 0) + fit_squares M x xs
  | _, _, _ => 0
  end.

(** Modelled from the spec: the objective [F(X; w)] of section 3. *)
Definition objective (P : Problem) (x : list Q) (w : Q) : option Q :=
  E ← quality_energy P x;
  Some (E + w / 2 * fit_squares (marker P) x (fit_target P)).

(** Modelled from the spec: the surface-fit error of section 4.6, the
    maximum over the marked DOFs of [|x_i - x*_i|]. *)
Fixpoint fit_error (M : list bool) (x xs : list Q) : Q :=
  match M, x, xs with
  | m :: M, a :: x, b :: xs =>
      Qmax (if m then Qabs (a - b) else 0) (fit_error M x xs)
  | _, _, _ => 0
  end.

Definition axpy (α : Q) (δ x : list Q) : list Q :=
  zip_with (λ xi di, xi + α * di) x δ.

(** Modelled from the spec: step 3 of section 4.6, the validity-and-descent
    line search.  A trial that reports an invalid Jacobian or does not
    decrease the objective halves the step; [None] is line-search failure. *)
Fixpoint line_search (P : Problem) (w Fx : Q) (x δ : list Q) (α : Q)
    (trials : nat) : option (list Q) :=
  match trials with
  | O => None
  | S trials =>
      let x_trial := axpy α δ x in
      match objective P x_trial w with
      | Some Ft =>
          if Qlt_le_dec Ft Fx then Some x_trial
          else line_search P w Fx x δ (α / 2) trials
      | None => line_search P w Fx x δ (α / 2) trials
      end
  end.

(** Modelled from the spec: the terminal states of section 4.6. *)
Inductive Terminal :=
| ConvergedByFit
| ConvergedByResidual
| LineSearchFailed
| IterationLimit.

Record Result := mkResult {
  terminal : Terminal;
  output : list Q;
  (** the iterates accepted at step 4, in order *)
  accepted : list (list Q);
  (** the fitting weight after each accepted step *)
  weights : list Q }.

Definition accept (x : list Q) (w : Q) (r : Result) : Result :=
  {| terminal := terminal r; output := output r;
     accepted := x :: accepted r; weights := w :: weights r |}.

(** Modelled from the spec: step 5 of section 4.6.  The weight doubles,
    up to the ceiling, when the fit error did not decrease. *)
Definition next_weight (c : Controls) (w ε ε' : Q) : Q :=
  if adaptive c && Qle_bool ε ε' then Qmin (2 * w) (Qmax w (weight_ceiling c))
  else w.

(** Modelled from the spec: the per-iteration contract of section 4.6
    (class [TMOPNewtonSolver]).  [k] counts the iterations left. *)
Fixpoint newton_loop (P : Problem) (c : Controls) (k : nat)
    (x : list Q) (w ε r0 : Q) : Result :=
  let r := residual_norm P x w in
  if Qle_bool r (Qmax (rtol c * r0) (atol c)) && Qle_bool ε (eps_star c)
  then mkResult ConvergedByResidual x [] []
  else
    match k with
    | O => mkResult IterationLimit x [] []
    | S k =>
        match objective P x w with
        | None => mkResult LineSearchFailed x [] []
        | Some Fx =>
            let δ := newton_direction P x w in
            match line_search P w Fx x δ 1 (S (max_halvings c)) with
            | None => mkResult LineSearchFailed x [] []
            | Some x' =>
                let ε' := fit_error (marker P) x' (fit_target P) in
                let w' := next_weight c w ε ε' in
                if Qle_bool ε' (eps_star c)
                then mkResult ConvergedByFit x' [x'] [w']
                else accept x' w' (newton_loop P c k x' w' ε' r0)
            end
        end
    end.

(** Modelled from the spec: [TMOPNewtonSolver::Mult], the iteration of
    section 4.6 started at [x] with the initial weight. *)
Definition Mult (P : Problem) (c : Controls) (x : list Q) : Result :=
  let w := initial_weight c in
  newton_loop P c (max_iter c) x w
    (fit_error (marker P) x (fit_target P)) (residual_norm P x w).

(** Modelled from the spec: the no-inversion property of sections 3 and
    8.  The Jacobian determinant is positive at every quadrature point of
    every element. *)
Definition valid (P : Problem) (x : list Q) : Prop :=
  ∀ e q, (e < NE P)%nat → (q < length (quad_weights P))%nat →
    0 < det (Jacobian P x e q).

(** The controls that [main] sets (lines 141, 160-164), with the bounds
    the specification suggests for what [main] leaves to the library. *)
Definition driver_controls : Controls :=
  {| max_iter := 200; rtol := 1 / 10 ^ 10; atol := 0;
     eps_star := 1 / 10 ^ 2; adaptive := true;
     initial_weight := 100; weight_ceiling := 10 ^ 10;
     max_halvings := 12 |}.

End Tmop.

(** ** Small worlds to run the driver in

    libm is replaced by short Taylor polynomials (exact at 0) and the
    solver by a stub that moves nothing. *)

Module Fixture.
Import Driver.

Definition library_defaults : IterativeSolver :=
  {| max_iter := 10; rel_tol := 0; abs_tol := 0; print_level := -1 |}.

Definition toy_world (good : bool) (mesh : Mesh) (space : FESpace)
    (nodes : list float) : World :=
  {| WorldRank := 0;
     Parse := λ _ o, (o, good);
     ReadMesh := λ _, Some mesh;
     UniformRefinement := λ m, m;
     NodalSpace := λ _ _ _, space;
     NodalCoords := λ _ _, nodes;
     sin := λ x, (x - x * x * x / 6)%float;
     cos := λ x, (1 - x * x / 2)%float;
     new_MINRESSolver := mkMINRES library_defaults;
     new_TMOPNewtonSolver := λ ir type,
       mkNewton library_defaults ir type None None false 0%float;
     GetTrueVector := λ _ x, x;
     SetFromTrueVector := λ _ x, x;
     Mult := λ _ _ x, Some x |}.

(** One bilinear quadrilateral on the unit square: four nodes, four
    boundary edges, the horizontal ones with attribute 2.  The scalar DOFs
    are ordered by component: x of the four nodes, then y. *)
Definition square_mesh : Mesh :=
  {| Dimension := 2; GetNBE := 4;
     GetBdrAttribute := λ e, if decide (e = 0 ∨ e = 2) then 2 else 1 |}.

Definition square_space : FESpace :=
  {| GetNDofs := 4; GetVSize := 8;
     GetBEDof := λ _, 2;
     GetBdrElementVDofs := λ e,
       let a := e `mod` 4 in let b := (e + 1) `mod` 4 in [a; b; 4 + a; 4 + b];
     GetGeomType0 := SQUARE |}.

Definition square_nodes : list float :=
  [0; 1; 1; 0;  0; 0; 1; 1]%float.

Definition square_world (good : bool) : World :=
  toy_world good square_mesh square_space square_nodes.

(** The program variables after the marking loop on the unit square (the
    y target of node 2 is what the Taylor polynomial gives at 3 pi). *)
Definition square_fitted : Vars :=
  {| coord := square_nodes;
     x0 := square_nodes;
     fit_marker := [true; true; true; true];
     fit_marker_vis_gf := [1; 1; 1; 1;  0; 0; 0; 0]%float;
     coord_target := [0; 1; 1; 0;  0; 0; -12.010346710057981; 1]%float |}.

(** The Newton solver as [main] has set it up on the unit square. *)
Definition square_solver : TMOPNewtonSolver :=
  newton_setup (square_world true) square_space 5
    (tmop_setup 2 square_fitted) (minres_setup (square_world true)).

(** One quadrilateral on the slab [0,1] x [1/4,1], nodes numbered
    counter-clockwise from (0, 1/4).  The boundary edges come in the order
    left (attribute 1), bottom (2), right (1), top (2), so the node
    (0, 1/4) is visited first on an edge with attribute 1 and then on one
    with attribute 2. *)
Definition slab_mesh : Mesh :=
  {| Dimension := 2; GetNBE := 4;
     GetBdrAttribute := λ e, if decide (e = 1 ∨ e = 3) then 2 else 1 |}.

Definition slab_space : FESpace :=
  {| GetNDofs := 4; GetVSize := 8;
     GetBEDof := λ _, 2;
     GetBdrElementVDofs := λ e,
       let a := (e + 3) `mod` 4 in let b := e `mod` 4 in [a; b; 4 + a; 4 + b];
     GetGeomType0 := SQUARE |}.

Definition slab_nodes : list float :=
  [0; 1; 1; 0;  0.25; 0.25; 1; 1]%float.

Definition slab_world : World :=
  toy_world true slab_mesh slab_space slab_nodes.

(** The program variables after the marking loop on the slab. *)
Definition slab_fitted : Vars :=
  {| coord := slab_nodes;
     x0 := slab_nodes;
     fit_marker := [true; true; true; true];
     fit_marker_vis_gf := [1; 1; 1; 1;  0; 0; 0; 0]%float;
     coord_target := [0; 1; 1; 0;  0; 0.25; -12.010346710057981; 1]%float |}.

(** The unit square with the scalar DOFs interleaved by node (x and y of
    node 0, then of node 1, ...): the x component of node [n] has index
    [2 n], which for the nodes 2 and 3 is not below [GetNDofs()]. *)
Definition interleaved_space : FESpace :=
  {| GetNDofs := 4; GetVSize := 8;
     GetBEDof := λ _, 2;
     GetBdrElementVDofs := λ e,
       let a := e `mod` 4 in let b := (e + 1) `mod` 4 in
       [2 * a; 2 * b; 2 * a + 1; 2 * b + 1];
     GetGeomType0 := SQUARE |}.

Definition interleaved_nodes : list float :=
  [0; 0;  1; 0;  1; 1;  0; 1]%float.

(** One rectangular element with side lengths [s] and [t], the state being
    [[s; t]]: its Jacobian is diagonal.  The first side is to be fitted to
    1/4.  The inner solver always proposes the step [[-1; 0]], which
    inverts the element when taken in full. *)
Definition rectangle_problem : Tmop.Problem :=
  {| Tmop.metric := TMOP_Metric_002;
     Tmop.target := IDEAL_SHAPE_UNIT_SIZE;
     Tmop.space_dim := 2;
     Tmop.NE := 1;
     Tmop.quad_weights := [1%Q];
     Tmop.Jacobian := λ x _ _,
       [[nth 0 x 0%Q; 0%Q]; [0%Q; nth 1 x 0%Q]];
     Tmop.fit_target := [1 # 4; 1]%Q;
     Tmop.marker := [true; false];
     Tmop.residual_norm := λ _ _, 1%Q;
     Tmop.newton_direction := λ _ _, [- (1); 0]%Q |}.

End Fixture.
(** ** Facts about arrays and loops *)

Module ArrFacts.
Import Arr.

Lemma at_Some {A} (a : list A) i x :
  at_ a i = Some x ↔ 0 ≤ i ∧ a !! Z.to_nat i = Some x.
Proof.
  unfold at_. case_decide; [tauto|].
  split; [discriminate|tauto].
Qed.

Lemma at_in_range {A} (a : list A) i :
  0 ≤ i < Z.of_nat (length a) → is_Some (at_ a i).
Proof.
  intros Hi. unfold at_. rewrite decide_True by lia.
  apply lookup_lt_is_Some. lia.
Qed.

Lemma put_Some {A} (a b : list A) i v :
  put a i v = Some b ↔
  0 ≤ i < Z.of_nat (length a) ∧ b = <[Z.to_nat i := v]> a.
Proof.
  unfold put. case_decide.
  - split; [intros [= <-]; tauto|intros [_ ->]; done].
  - split; [discriminate|tauto].
Qed.

Lemma put_length {A} (a b : list A) i v :
  put a i v = Some b → length b = length a.
Proof. rewrite put_Some. intros [_ ->]. apply length_insert. Qed.

Lemma put_at_eq {A} (a b : list A) i v :
  put a i v = Some b → at_ b i = Some v.
Proof.
  rewrite put_Some. intros [Hi ->]. apply at_Some. split; [lia|].
  apply list_lookup_insert_eq. lia.
Qed.

Lemma put_at_ne {A} (a b : list A) i k v :
  put a i v = Some b → k ≠ i → at_ b k = at_ a k.
Proof.
  rewrite put_Some. intros [Hi ->] Hk. unfold at_. case_decide; [|done].
  apply list_lookup_insert_ne. lia.
Qed.

Lemma put_in_range {A} (a : list A) i v :
  0 ≤ i < Z.of_nat (length a) →
  ∃ b, put a i v = Some b ∧ length b = length a.
Proof.
  intros Hi. unfold put. rewrite decide_True by done.
  eexists; split; [done|]. apply length_insert.
Qed.

Lemma bind_Some_l {A B} (x : A) (f : A → option B) : Some x ≫= f = f x.
Proof. reflexivity. Qed.

Lemma foldl_bind_None {S} (body : Z → S → option S) l :
  foldl (λ acc i, acc ≫= body i) None l = None.
Proof. induction l; simpl; auto. Qed.

(** The invariant rule of the counted loop. *)
Lemma for_loop_inv {S} (P : S → Prop) n (body : Z → S → option S) s s' :
  P s →
  (∀ i a b, 0 ≤ i < n → P a → body i a = Some b → P b) →
  for_loop n body s = Some s' → P s'.
Proof.
  intros Hs Hstep. unfold for_loop.
  assert (Hl : ∀ i, i ∈ seqZ 0 n → 0 ≤ i < n)
    by (intros i Hi; apply elem_of_seqZ in Hi; lia).
  revert s Hs Hl. generalize (seqZ 0 n) as l.
  induction l as [|i l IH]; intros s Hs Hl; simpl.
  - by intros [= <-].
  - destruct (body i s) as [b|] eqn:Hb; simpl.
    + apply IH; [|intros k Hk; apply Hl; by right].
      eapply Hstep; [apply Hl; by left|done..].
    + by rewrite foldl_bind_None.
Qed.

(** The loop runs through when every iteration does, under an invariant. *)
Lemma for_loop_total {S} (P : S → Prop) n (body : Z → S → option S) s :
  P s →
  (∀ i a, 0 ≤ i < n → P a → ∃ b, body i a = Some b ∧ P b) →
  ∃ s', for_loop n body s = Some s' ∧ P s'.
Proof.
  intros Hs Hstep. unfold for_loop.
  assert (Hl : ∀ i, i ∈ seqZ 0 n → 0 ≤ i < n)
    by (intros i Hi; apply elem_of_seqZ in Hi; lia).
  revert s Hs Hl. generalize (seqZ 0 n) as l.
  induction l as [|i l IH]; intros s Hs Hl; simpl; [by eauto|].
  destruct (Hstep i s) as (b & -> & Hb); [apply Hl; by left|done|]; simpl.
  apply IH; [done|]. intros k Hk. apply Hl. by right.
Qed.

End ArrFacts.

(** ** Facts about the driver *)

Module DriverFacts.
Import Arr ArrFacts Driver.

(** Splits a run of [main] into its five ways to end. *)
Ltac run_main :=
  unfold main;
  destruct (Parse _ _ default_options) as [args good]; cbn [fst snd];
  destruct good; cbn [negb];
  [ destruct (load_mesh _ args) as [?pmesh|] eqn:Hmesh; cbv zeta;
    [ destruct (fit_setup _ _ _ _ _) as [v2|] eqn:Hfit; cbv zeta;
      [ destruct (Mult _ _ _ _) as [x'|] eqn:Hmult | ] | ] | ];
  cbn [events history outcome].

(** Decides which entry of an explicit event list a given event is. *)
Ltac which_event H :=
  repeat first
    [ apply elem_of_app in H as [H|H]
    | apply elem_of_cons in H as [H|H]
    | apply elem_of_nil in H; destruct H
    | case_decide ];
  try discriminate H.

(** Shows that a run whose mesh, marking loop or solver did not come back
    does not get to its end. *)
Ltac refute_completes H :=
  let Hm := fresh "Hm" in
  let Hf := fresh "Hf" in
  let Hy := fresh "Hy" in
  destruct H as (? & ? & ? & Hm & Hf & Hy);
  try (injection Hm as <-);
  simpl in *; congruence.

(** C7 -- [main] returns 1 exactly when [args.Good()] is false, and then it
    has printed at most the usage text: no mesh was read and no program
    variable of the optimization exists.  It returns 0 exactly when the
    arguments parse and the run gets to its end, that is, the mesh is
    read, the marking loop runs through and the solver returns.  It
    returns no other code; what is left is a run that the library aborts
    (or that reads out of bounds), when the arguments parse and one of
    these three steps does not come back. *)
Theorem main_exit_code (w : World) (argv : list string) :
  let args := (Parse w argv default_options).1 in
  let good := (Parse w argv default_options).2 in
  let run := main w argv in
  let completes :=
    ∃ pmesh v2 x',
      let dim := Dimension pmesh in
      let pfes_mesh := mesh_space w args pmesh in
      let v4 := set_coord (x0 v2) (set_coord (coord_target v2) v2) in
      load_mesh w args = Some pmesh ∧
      fit_setup w dim pmesh pfes_mesh
        (declare_fields pfes_mesh (NodalCoords w pmesh pfes_mesh))
        = Some v2 ∧
      Mult w (newton_setup w pfes_mesh (quad_order args)
                (tmop_setup dim v4) (minres_setup w))
        [] (GetTrueVector w pfes_mesh (coord v4)) = Some x' in
  (outcome run = Returned 1 ↔ good = false) ∧
  (good = false →
     history run = [] ∧ ∀ ev, ev ∈ events run → ev = PrintUsage) ∧
  (outcome run = Returned 0 ↔ good = true ∧ completes) ∧
  (outcome run = Aborted ↔ good = true ∧ ¬ completes) ∧
  (∀ code, outcome run = Returned code → code = 0 ∨ code = 1).
Proof.
  cbv zeta. run_main; split_and!.
  (* the run gets to its end *)
  - done.
  - done.
  - split; [intros _|done]. split; [done|]. by exists pmesh, v2, x'.
  - split; [done|]. intros [_ Hno]. destruct Hno. by exists pmesh, v2, x'.
  - intros code [= <-]. by left.
  (* the solver does not return *)
  - done.
  - done.
  - split; [done|]. intros [_ Hc]. by refute_completes Hc.
  - split; [intros _|done]. split; [done|]. intros Hc.
    by refute_completes Hc.
  - by intros code [=].
  (* the marking loop does not run through *)
  - done.
  - done.
  - split; [done|]. intros [_ Hc]. by refute_completes Hc.
  - split; [intros _|done]. split; [done|]. intros Hc.
    by refute_completes Hc.
  - by intros code [=].
  (* the mesh is not read *)
  - done.
  - done.
  - split; [done|]. intros [_ Hc]. by refute_completes Hc.
  - split; [intros _|done]. split; [done|]. intros Hc.
    by refute_completes Hc.
  - by intros code [=].
  (* the arguments do not parse *)
  - done.
  - intros _. split; [done|]. intros ev Hev. by which_event Hev.
  - split; [done|]. by intros [? _].
  - split; [done|]. by intros [? _].
  - intros code [= <-]. by right.
Qed.

(** *** The loop that picks the nodes to fit (lines 93-126) *)

(** Peels the successful binds off a computation in the option monad. *)
Ltac bind_inv H :=
  repeat match type of H with
  | (?m ≫= _) = Some _ =>
      let E := fresh "E" in
      destruct m eqn:E; simpl in H; [|discriminate H]
  end.

(** One pass through the loop body: [coord] and [x0] are not written, the
    two markers are written at [j_x], and [coord_target] is written at
    [j_y]: with the boundary profile when the attribute is 2, with the old
    coordinate otherwise. *)
Lemma fit_node_inv w dim nd attr vdofs j v v' :
  fit_node w dim nd attr vdofs j v = Some v' →
  ∃ j_x j_y x y z t,
    at_ vdofs j = Some j_x ∧
    at_ vdofs (nd + j) = Some j_y ∧
    at_ (coord v) j_x = Some x ∧
    at_ (coord v) j_y = Some y ∧
    dof_z dim v nd vdofs j = Some z ∧
    coord v' = coord v ∧ x0 v' = x0 v ∧
    put (fit_marker v) j_x true = Some (fit_marker v') ∧
    put (fit_marker_vis_gf v) j_x 1%float = Some (fit_marker_vis_gf v') ∧
    put (coord_target v) j_y t = Some (coord_target v') ∧
    (attr = 2 → t = boundary_profile w x y z) ∧
    (attr ≠ 2 → t = y).
Proof.
  unfold fit_node. intros H. bind_inv H. injection H as <-. simpl.
  match goal with
  | E1 : at_ vdofs j = Some ?a, E2 : at_ vdofs (nd + j) = Some ?b,
    E3 : at_ (coord v) ?a = Some ?x, E4 : at_ (coord v) ?b = Some ?y,
    E5 : dof_z dim v nd vdofs j = Some ?z,
    E6 : (if decide (attr = 2) then _ else _) = Some _ |- _ =>
      exists a, b, x, y, z; rename E6 into Ht;
      exists (if decide (attr = 2) then boundary_profile w x y z else y)
  end.
  split_and!; try done.
  - unfold boundary_profile. destruct (decide (attr = 2)); [|done].
    repeat match type of Ht with
           | (if ?b then _ else _) = _ => destruct b
           end; done.
  - intros Ha. by rewrite decide_True.
  - intros Ha. by rewrite decide_False.
Qed.

(** Whatever every in-range pass through the body preserves holds when the
    two nested loops are over. *)
Lemma fit_setup_inv w dim pmesh pfes_mesh (P : Vars → Prop) v v' :
  P v →
  (∀ e j a b,
     0 ≤ e < GetNBE pmesh → 0 ≤ j < GetBEDof pfes_mesh e → P a →
     fit_node w dim (GetBEDof pfes_mesh e) (GetBdrAttribute pmesh e)
       (GetBdrElementVDofs pfes_mesh e) j a = Some b →
     P b) →
  fit_setup w dim pmesh pfes_mesh v = Some v' → P v'.
Proof.
  intros Hv Hstep. unfold fit_setup. apply for_loop_inv; [done|].
  intros e a b He Ha. unfold fit_bdr_element. apply for_loop_inv; [done|].
  intros j a' b' Hj. by apply Hstep.
Qed.

Lemma fit_setup_coord w dim pmesh pfes_mesh v v' :
  fit_setup w dim pmesh pfes_mesh v = Some v' →
  coord v' = coord v ∧ x0 v' = x0 v.
Proof.
  apply (fit_setup_inv _ _ _ _ (λ a, coord a = coord v ∧ x0 a = x0 v));
    [done|].
  intros e j a b _ _ [Hc Hx] Hb.
  apply fit_node_inv in Hb
    as (? & ? & ? & ? & ? & ? & _ & _ & _ & _ & _ & -> & -> & _).
  done.
Qed.

Lemma fit_setup_lengths w dim pmesh pfes_mesh v v' :
  fit_setup w dim pmesh pfes_mesh v = Some v' →
  length (fit_marker v') = length (fit_marker v) ∧
  length (fit_marker_vis_gf v') = length (fit_marker_vis_gf v) ∧
  length (coord_target v') = length (coord_target v).
Proof.
  apply (fit_setup_inv _ _ _ _
           (λ a, length (fit_marker a) = length (fit_marker v) ∧
                 length (fit_marker_vis_gf a) = length (fit_marker_vis_gf v) ∧
                 length (coord_target a) = length (coord_target v)));
    [done|].
  intros e j a b _ _ (Hm & Hg & Ht) Hb.
  apply fit_node_inv in Hb
    as (? & ? & ? & ? & ? & ? & _ & _ & _ & _ & _ & _ & _ & Hm' & Hg' & Ht' & _).
  apply put_length in Hm', Hg', Ht'. split_and!; congruence.
Qed.

(** C10 (as the code has it) -- after the loop, an entry of
    [coord_target] is either the initial coordinate or the boundary profile
    that a pass for a boundary element with attribute 2 has written into
    this entry as the y component of one of its DOFs.  Hence [coord_target]
    differs from the initial coordinates at most in y components of DOFs
    that lie on a boundary element with attribute 2.  [component] tells
    which spatial component a scalar DOF belongs to; the boundary tables
    are component-major, so the block that starts at [nd] holds y
    components: every x and every z component, and the y component of
    every DOF that is on no boundary element with attribute 2, keeps its
    initial value. *)
Theorem coord_target_frame (w : World) (dim : Z) (pmesh : Mesh)
    (pfes_mesh : FESpace) (nodes : list float) (v : Vars)
    (component : Z → Z) :
  fit_setup w dim pmesh pfes_mesh (declare_fields pfes_mesh nodes) = Some v →
  (∀ e j i,
     0 ≤ e < GetNBE pmesh → 0 ≤ j < GetBEDof pfes_mesh e →
     at_ (GetBdrElementVDofs pfes_mesh e) (GetBEDof pfes_mesh e + j) = Some i →
     component i = 1) →
  length (coord_target v) = length nodes ∧
  (∀ i, component i ≠ 1 → at_ (coord_target v) i = at_ nodes i) ∧
  (∀ i,
     (∀ e j,
        0 ≤ e < GetNBE pmesh → 0 ≤ j < GetBEDof pfes_mesh e →
        GetBdrAttribute pmesh e = 2 →
        at_ (GetBdrElementVDofs pfes_mesh e) (GetBEDof pfes_mesh e + j)
          ≠ Some i) →
     at_ (coord_target v) i = at_ nodes i) ∧
  (∀ i,
     at_ (coord_target v) i = at_ nodes i ∨
     ∃ e j j_x x y z,
       let nd := GetBEDof pfes_mesh e in
       let vdofs := GetBdrElementVDofs pfes_mesh e in
       (0 ≤ e < GetNBE pmesh ∧ 0 ≤ j < nd) ∧
       GetBdrAttribute pmesh e = 2 ∧
       at_ vdofs (nd + j) = Some i ∧ at_ vdofs j = Some j_x ∧
       at_ nodes j_x = Some x ∧ at_ nodes i = Some y ∧
       dof_z dim (declare_fields pfes_mesh nodes) nd vdofs j = Some z ∧
       at_ (coord_target v) i = Some (boundary_profile w x y z)).
Proof.
  intros Hfit Hy.
  set (written := λ (tgt : list float) i,
    ∃ e j j_x x y z,
       let nd := GetBEDof pfes_mesh e in
       let vdofs := GetBdrElementVDofs pfes_mesh e in
       (0 ≤ e < GetNBE pmesh ∧ 0 ≤ j < nd) ∧
       GetBdrAttribute pmesh e = 2 ∧
       at_ vdofs (nd + j) = Some i ∧ at_ vdofs j = Some j_x ∧
       at_ nodes j_x = Some x ∧ at_ nodes i = Some y ∧
       dof_z dim (declare_fields pfes_mesh nodes) nd vdofs j = Some z ∧
       at_ tgt i = Some (boundary_profile w x y z)).
  assert (Hchar : ∀ i,
    at_ (coord_target v) i = at_ nodes i ∨ written (coord_target v) i).
  { intros i. revert Hfit.
    apply (fit_setup_inv _ _ _ _
             (λ a, coord a = nodes ∧
                   (at_ (coord_target a) i = at_ nodes i
                    ∨ written (coord_target a) i))); [by split; [|left]|].
    intros e j a b He Hj [Hc Ha] Hb.
    apply fit_node_inv in Hb
      as (j_x & j_y & x & y & z & t & Hjx & Hjy & Hxv & Hyv & Hz & -> & _
          & _ & _ & Hput & Ht2 & Ht).
    split; [done|]. destruct (decide (i = j_y)) as [->|Hne].
    - rewrite (put_at_eq _ _ _ _ Hput).
      destruct (decide (GetBdrAttribute pmesh e = 2)) as [Hattr|Hattr].
      + right. exists e, j, j_x, x, y, z. cbv zeta.
        rewrite Hc in Hxv, Hyv. unfold dof_z in *. simpl.
        rewrite Hc in Hz. rewrite <- (Ht2 Hattr).
        split_and!; first [done | lia | by eapply put_at_eq].
      + left. by rewrite (Ht Hattr), <- Hyv, Hc.
    - destruct Ha as [Ha|(e' & j' & jx' & x' & y' & z' & Ha)]; [left|right].
      + by rewrite (put_at_ne _ _ _ _ _ Hput Hne).
      + exists e', j', jx', x', y', z'. cbv zeta in *.
        by rewrite (put_at_ne _ _ _ _ _ Hput Hne). }
  assert (Hframe : ∀ i,
     (∀ e j,
        0 ≤ e < GetNBE pmesh → 0 ≤ j < GetBEDof pfes_mesh e →
        GetBdrAttribute pmesh e = 2 →
        at_ (GetBdrElementVDofs pfes_mesh e) (GetBEDof pfes_mesh e + j)
          ≠ Some i) →
     at_ (coord_target v) i = at_ nodes i).
  { intros i Hi. destruct (Hchar i) as [|Hw]; [done|].
    destruct Hw as (e & j & ? & ? & ? & ? & [He Hj] & Hattr & Hei & _).
    by destruct (Hi e j He Hj Hattr). }
  split_and!; [|intros i Hi|done|done].
  - by apply fit_setup_lengths in Hfit as (_ & _ & ->).
  - apply Hframe. intros e j He Hj _ Hei. by apply Hi, (Hy e j).
Qed.

(** X1 -- the loop runs through (no access out of bounds) when every
    boundary table has its [dim] blocks of [nd] entries, the x block within
    the marker and every entry within the coordinate vector. *)
Lemma fit_setup_total (w : World) (dim : Z) (pmesh : Mesh)
    (pfes_mesh : FESpace) (nodes : list float) :
  GetNDofs pfes_mesh ≤ GetVSize pfes_mesh →
  (∀ e j,
     0 ≤ e < GetNBE pmesh → 0 ≤ j < GetBEDof pfes_mesh e →
     let nd := GetBEDof pfes_mesh e in
     let vdofs := GetBdrElementVDofs pfes_mesh e in
     ∃ j_x j_y,
       at_ vdofs j = Some j_x ∧ at_ vdofs (nd + j) = Some j_y ∧
       0 ≤ j_x < GetNDofs pfes_mesh ∧ j_x < Z.of_nat (length nodes) ∧
       0 ≤ j_y < Z.of_nat (length nodes) ∧
       (dim ≠ 2 → ∃ j_z, at_ vdofs (2 * nd + j) = Some j_z ∧
                         0 ≤ j_z < Z.of_nat (length nodes))) →
  is_Some (fit_setup w dim pmesh pfes_mesh (declare_fields pfes_mesh nodes)).
Proof.
  intros Hsize Hwf.
  set (P := λ a : Vars,
         coord a = nodes ∧
         length (fit_marker a) = Z.to_nat (GetNDofs pfes_mesh) ∧
         length (fit_marker_vis_gf a) = Z.to_nat (GetVSize pfes_mesh) ∧
         length (coord_target a) = length nodes).
  cut (∃ v, fit_setup w dim pmesh pfes_mesh (declare_fields pfes_mesh nodes)
            = Some v ∧ P v); [intros (v & -> & _); by eexists|].
  unfold fit_setup. apply for_loop_total.
  { unfold P; simpl. by rewrite !length_replicate. }
  intros e a He Ha. unfold fit_bdr_element. apply for_loop_total; [done|].
  intros j b Hj (Hc & Hm & Hg & Ht).
  destruct (Hwf e j He Hj)
    as (j_x & j_y & Hjx & Hjy & Hxm & Hxn & Hyn & Hz).
  destruct (at_in_range nodes j_x) as [x Hx]; [lia|].
  destruct (at_in_range nodes j_y) as [y Hyv]; [lia|].
  assert (Hzv : ∃ z, dof_z dim b (GetBEDof pfes_mesh e)
                       (GetBdrElementVDofs pfes_mesh e) j = Some z).
  { unfold dof_z. rewrite Hc.
    case_decide; [by eexists|]. destruct Hz as (j_z & -> & Hzn); [done|].
    rewrite bind_Some_l. by apply at_in_range. }
  destruct Hzv as [z Hzv].
  destruct (put_in_range (fit_marker b) j_x true) as (m & Hm1 & Hm2); [lia|].
  destruct (put_in_range (fit_marker_vis_gf b) j_x 1%float)
    as (g & Hg1 & Hg2); [lia|].
  unfold fit_node. rewrite Hc.
  rewrite Hjx, bind_Some_l; cbv beta. rewrite Hjy, bind_Some_l; cbv beta.
  rewrite Hx, bind_Some_l; cbv beta. rewrite Hyv, bind_Some_l; cbv beta.
  rewrite Hzv, bind_Some_l; cbv beta. rewrite Hm1, bind_Some_l; cbv beta.
  rewrite Hg1, bind_Some_l; cbv beta.
  match goal with
  | |- ∃ c, ?t ≫= _ = Some c ∧ _ =>
      assert (Htgt : ∃ l, t = Some l ∧ length l = length nodes)
  end.
  { repeat match goal with
           | |- context [if ?c then _ else _] => destruct c
           end.
    all: rewrite <- Ht; apply put_in_range; lia. }
  destruct Htgt as (l & -> & Hl). rewrite bind_Some_l; cbv beta.
  eexists; split; [done|]. unfold P; simpl. split_and!; congruence.
Qed.

(** What a run has done by the time it calls the Newton solver. *)
Lemma main_solve_inv (w : World) (argv : list string) solver x :
  NewtonSolve solver x ∈ events (main w argv) →
  let args := (Parse w argv default_options).1 in
  ∃ pmesh v2,
    let dim := Dimension pmesh in
    let pfes_mesh := mesh_space w args pmesh in
    let v1 := declare_fields pfes_mesh (NodalCoords w pmesh pfes_mesh) in
    let v4 := set_coord (x0 v2) (set_coord (coord_target v2) v2) in
    load_mesh w args = Some pmesh ∧
    fit_setup w dim pmesh pfes_mesh v1 = Some v2 ∧
    solver = newton_setup w pfes_mesh (quad_order args)
               (tmop_setup dim v4) (minres_setup w) ∧
    x = GetTrueVector w pfes_mesh (coord v4) ∧
    [v1; v2; set_coord (coord_target v2) v2; v4] `prefix_of`
      history (main w argv).
Proof.
  cbv zeta. run_main; intros Hev; which_event Hev.
  all: injection Hev as -> ->; exists pmesh, v2; split_and!; auto.
  by eexists [_].
Qed.

(** C2 -- the Newton solver that [main] runs has maximum iteration count
    200, relative tolerance 1e-10, absolute tolerance 0, the adaptive
    surface-fitting schedule enabled and surface-fit termination threshold
    1e-2, whatever the library's constructor had put there. *)
Theorem newton_solver_configuration (w : World) (argv : list string) solver x :
  NewtonSolve solver x ∈ events (main w argv) →
  max_iter (newton_controls solver) = 200 ∧
  rel_tol (newton_controls solver) = 1e-10%float ∧
  abs_tol (newton_controls solver) = 0%float ∧
  adaptive_surf_fit solver = true ∧
  surf_fit_max_threshold solver = 1e-2%float.
Proof.
  intros Hev. apply main_solve_inv in Hev as (pmesh & v2 & Hev).
  cbv zeta in Hev. destruct Hev as (_ & _ & -> & _). by repeat split.
Qed.

(** C6 -- the linear solver installed in the Newton solver is the MINRES
    solver, with maximum iteration count 100, relative tolerance 1e-12 and
    absolute tolerance 0. *)
Theorem inner_solver_configuration (w : World) (argv : list string) solver x :
  NewtonSolve solver x ∈ events (main w argv) →
  ∃ minres : MINRESSolver,
    prec solver = Some minres ∧
    max_iter (minres_controls minres) = 100 ∧
    rel_tol (minres_controls minres) = 1e-12%float ∧
    abs_tol (minres_controls minres) = 0%float.
Proof.
  intros Hev. apply main_solve_inv in Hev as (pmesh & v2 & Hev).
  cbv zeta in Hev. destruct Hev as (_ & _ & -> & _).
  exists (minres_setup w). by repeat split.
Qed.

(** Case analysis on a position in an explicit history. *)
Ltac which_state H :=
  try (progress simpl in H);
  repeat match type of H with
  | (_ :: _) !! ?i = Some _ => destruct i as [|i]; simpl in H
  | [] !! _ = Some _ => discriminate H
  | Some _ = Some _ => injection H as <-
  end.


(** C5 (as the code has it) -- the fit marker has one entry per node:
    its size is [GetNDofs()], the number of DOFs of one spatial component,
    at every point of the run.  It is not written after the loop of lines
    93-126: from there on, across the call of the solver, it holds the same
    value, which is the one the integrator was given. *)
Theorem fit_marker_per_node (w : World) (argv : list string) (pmesh : Mesh) :
  let args := (Parse w argv default_options).1 in
  let run := main w argv in
  load_mesh w args = Some pmesh →
  (∀ v, v ∈ history run →
     length (fit_marker v) = Z.to_nat (GetNDofs (mesh_space w args pmesh))) ∧
  (∀ i k a b,
     (1 ≤ i)%nat → (1 ≤ k)%nat →
     history run !! i = Some a → history run !! k = Some b →
     fit_marker a = fit_marker b) ∧
  (∀ solver x a integ fit b,
     NewtonSolve solver x ∈ events run →
     oper solver = Some a → integ ∈ domain_integrators a →
     surf_fit integ = Some fit → history run !! 1%nat = Some b →
     surf_fit_marker fit = fit_marker b).
Proof.
  cbv zeta. run_main; intros Hpm; try discriminate Hpm;
    try (injection Hpm as <-).
  all: try (apply fit_setup_lengths in Hfit as (Hlen & _);
            simpl in Hlen; rewrite length_replicate in Hlen).
  all: split_and!.
  all: try (intros v Hv; which_event Hv; subst v; simpl;
            by rewrite ?length_replicate).
  all: try (intros i k a b Hi Hk Ha Hb; which_state Ha; which_state Hb;
            solve [reflexivity | lia]).
  all: intros solver x a integ fit b Hev Ha Hinteg Hfitm Hb;
    which_event Hev; injection Hev as -> ->; which_state Hb.
  all: injection Ha as <-; which_event Hinteg; subst integ.
  all: simpl in Hfitm; by injection Hfitm as <-.
Qed.

(** C9 -- [x0] holds the initial mesh coordinates at every point of the
    run.  [coord] holds them too before the solve, except while the targets
    are shown (after line 129), when it holds [coord_target] and that is
    what the visualization sees as the mesh; line 133 restores it from
    [x0], so the vector the Newton solver starts from is the true-DOF
    vector of the initial coordinates. *)
Theorem solver_starts_from_snapshot (w : World) (argv : list string)
    (pmesh : Mesh) :
  let args := (Parse w argv default_options).1 in
  let run := main w argv in
  let pfes_mesh := mesh_space w args pmesh in
  let nodes := NodalCoords w pmesh pfes_mesh in
  load_mesh w args = Some pmesh →
  (∀ v, v ∈ history run → x0 v = nodes) ∧
  (∀ i v, i ∈ [0; 1; 3]%nat → history run !! i = Some v → coord v = nodes) ∧
  (∀ v, history run !! 2%nat = Some v →
     coord v = coord_target v ∧
     ∃ keys, VisualizeField "Target positions (DOFS with value 1)"
               (coord_target v) (fit_marker_vis_gf v) keys ∈ events run) ∧
  (∀ solver x, NewtonSolve solver x ∈ events run →
     x = GetTrueVector w pfes_mesh nodes ∧ is_Some (history run !! 3%nat)).
Proof.
  cbv zeta. run_main; intros Hpm; try discriminate Hpm;
    try (injection Hpm as <-).
  all: try (apply fit_setup_coord in Hfit as [Hc Hx]; simpl in Hc, Hx).
  all: split_and!.
  all: try (intros v Hv; which_event Hv; by subst v).
  all: try (intros i v Hi Hv; which_event Hi; subst i; which_state Hv;
            done).
  all: try (intros v Hv; which_state Hv; split; [done|]; eexists;
            rewrite !elem_of_app, !elem_of_cons; by eauto 10).
  all: intros solver x Hev; which_event Hev; injection Hev as -> ->.
  all: simpl; rewrite Hx; by eauto.
Qed.

(** The metric and the target constructor of the integrator that the
    Newton solver works on. *)
Lemma main_integrator (w : World) (argv : list string) solver x :
  NewtonSolve solver x ∈ events (main w argv) →
  let args := (Parse w argv default_options).1 in
  ∃ pmesh a integ,
    load_mesh w args = Some pmesh ∧
    oper solver = Some a ∧ domain_integrators a = [integ] ∧
    integ_metric integ = select_metric (Dimension pmesh) ∧
    target_type (integ_target integ) = IDEAL_SHAPE_UNIT_SIZE ∧
    surf_fit_coeff <$> surf_fit integ = Some 100%float.
Proof.
  intros Hev. apply main_solve_inv in Hev as (pmesh & v2 & Hev).
  cbv zeta in *. destruct Hev as (Hmesh & _ & -> & _).
  eexists pmesh, _, _. by split_and!.
Qed.

(** C10 (as claimed) fails at a DOF shared by boundary elements of both
    kinds: each pass through the loop body writes [coord_target(j_y)], so
    the element visited last decides.  On the slab, node 0 = (0, 1/4) is a
    DOF of boundary element 0, whose attribute is 1, and yet its y target
    is the value [0.1 * sin(0) * cos(0) = 0] written for element 1. *)
Lemma shared_dof_takes_last_write :
  ∃ v,
    fit_setup Fixture.slab_world 2 Fixture.slab_mesh Fixture.slab_space
      (declare_fields Fixture.slab_space Fixture.slab_nodes) = Some v ∧
    GetBdrAttribute Fixture.slab_mesh 0 ≠ 2 ∧
    at_ (GetBdrElementVDofs Fixture.slab_space 0)
        (GetBEDof Fixture.slab_space 0 + 1) = Some 4 ∧
    at_ Fixture.slab_nodes 4 = Some 0.25%float ∧
    at_ (coord_target v) 4 = Some 0%float ∧
    at_ (coord_target v) 4 ≠ at_ Fixture.slab_nodes 4.
Proof.
  eexists. split; [by vm_compute|].
  split_and!; by vm_compute.
Qed.

(** C5 (as claimed) fails: on the unit square with four nodes the
    coordinate field has [2 * 4] scalar DOFs, and the marker has four
    entries at every point of the run. *)
Lemma fit_marker_not_per_scalar_dof :
  let run := main (Fixture.square_world true) [] in
  history run ≠ [] ∧
  ∀ v, v ∈ history run →
    length (coord v) = 8%nat ∧
    length (fit_marker v) = 4%nat ∧
    Z.of_nat (length (fit_marker v))
      ≠ Dimension Fixture.square_mesh * GetNDofs Fixture.square_space.
Proof.
  cbv zeta. split; [by vm_compute|].
  intros v Hv. vm_compute in Hv. which_event Hv; subst v; by vm_compute.
Qed.

End DriverFacts.

(** ** Facts about the TMOP components *)

Module TmopFacts.
Import Tmop.
#[local] Open Scope Q_scope.

Lemma sum_points_Some l s :
  sum_points l = Some s → ∀ o, o ∈ l → is_Some o.
Proof.
  revert s. induction l as [|a l IH]; intros s Hs o Ho.
  - by apply elem_of_nil in Ho.
  - simpl in Hs. destruct a as [a|]; [|discriminate Hs]. simpl in Hs.
    destruct (sum_points l) as [b|] eqn:Hb; [|discriminate Hs].
    apply elem_of_cons in Ho as [->|Ho]; [by eexists|]. by eapply IH.
Qed.

(** A quadrature point contributes to the objective only where the
    Jacobian determinant is positive. *)
Lemma point_energy_positive P x e q ω :
  is_Some (point_energy P x e q ω) → 0 < det (Jacobian P x e q).
Proof.
  unfold point_energy. destruct (Qlt_le_dec 0 _) as [Hpos|]; [done|].
  by intros [? [=]].
Qed.

Lemma quality_energy_valid P x E : quality_energy P x = Some E → valid P x.
Proof.
  intros HE e q He Hq.
  destruct (lookup_lt_is_Some_2 (quad_weights P) q Hq) as [ω Hω].
  apply (point_energy_positive P x e q ω).
  apply (sum_points_Some _ _ HE). apply list_elem_of_In, in_flat_map.
  exists e. split; [apply in_seq; lia|].
  apply list_elem_of_In, list_elem_of_lookup. exists q.
  by rewrite list_lookup_imap, Hω.
Qed.

(** The objective has a value only at states without inverted elements. *)
Lemma objective_valid P x w F : objective P x w = Some F → valid P x.
Proof.
  unfold objective. destruct (quality_energy P x) as [E|] eqn:HE; [|done].
  intros _. by eapply quality_energy_valid.
Qed.

(** What the line search returns is a trial point [x + α δ] at which the
    objective is defined and smaller than at [x]. *)
Lemma line_search_accepts P w Fx x δ α trials x' :
  line_search P w Fx x δ α trials = Some x' →
  ∃ Ft, objective P x' w = Some Ft ∧ Ft < Fx.
Proof.
  revert α. induction trials as [|n IH]; intros α; simpl; [done|].
  destruct (objective P (axpy α δ x) w) as [Ft|] eqn:HF; [|by apply IH].
  destruct (Qlt_le_dec Ft Fx) as [Hlt|]; [|by apply IH].
  intros [= <-]. by exists Ft.
Qed.

Lemma line_search_valid P w Fx x δ α trials x' :
  line_search P w Fx x δ α trials = Some x' → valid P x'.
Proof.
  intros H. apply line_search_accepts in H as (Ft & HF & _).
  by eapply objective_valid.
Qed.

Lemma last_cons_default {A} (l : list A) a d :
  List.last (a :: l) d = List.last l a.
Proof.
  revert a d. induction l as [|b l IH]; intros a d; [done|].
  change (List.last (b :: l) d = List.last (b :: l) a).
  by rewrite (IH b d), (IH b a).
Qed.

Lemma newton_loop_accepted P c k x w ε r0 :
  let r := newton_loop P c k x w ε r0 in
  Forall (valid P) (accepted r) ∧ output r = List.last (accepted r) x.
Proof.
  cbv zeta. revert x w ε.
  induction k as [|k IH]; intros x w ε; cbn [newton_loop].
  all: destruct (_ && _); [by split|]; try by split.
  destruct (objective P x w) as [Fx|]; [|by split].
  destruct (line_search _ _ _ _ _ _ _) as [x'|] eqn:Hls; [|by split].
  apply line_search_valid in Hls.
  destruct (Qle_bool _ _); [split; [by repeat constructor|done]|].
  destruct (IH x' (next_weight c w ε (fit_error (marker P) x' (fit_target P)))
              (fit_error (marker P) x' (fit_target P))) as [Hall Hout].
  split; [by constructor|].
  cbn [accept output accepted]. by rewrite Hout, last_cons_default.
Qed.

(** C1 -- every iterate that the Newton solve accepts has a positive
    Jacobian determinant at every quadrature point of every element.  The
    output is the last accepted iterate (the input when no step was
    accepted), so it has the property too, provided the input mesh has. *)
Theorem accepted_iterates_not_inverted (P : Problem) (c : Controls)
    (x : list Q) :
  let r := Mult P c x in
  (∀ y, y ∈ accepted r →
     ∀ e q, (e < NE P)%nat → (q < length (quad_weights P))%nat →
       0 < det (Jacobian P y e q)) ∧
  output r = List.last (accepted r) x ∧
  (accepted r ≠ [] → valid P (output r)) ∧
  (valid P x → valid P (output r)).
Proof.
  cbv zeta. unfold Mult.
  destruct (newton_loop_accepted P c (max_iter c) x (initial_weight c)
              (fit_error (marker P) x (fit_target P))
              (residual_norm P x (initial_weight c))) as [Hall Hout].
  cbv zeta in Hall, Hout. rewrite Forall_forall in Hall.
  assert (Hlast : ∀ l, l ≠ [] → List.last l x ∈ l).
  { intros l Hl. apply list_elem_of_In.
    destruct (exists_last Hl) as (l' & a & ->).
    rewrite last_last. apply in_or_app. right. by left. }
  split_and!; [exact Hall|done|..].
  - intros Hne. rewrite Hout. by apply Hall, Hlast.
  - intros Hx. rewrite Hout.
    destruct (accepted _) as [|a l] eqn:Hacc; [done|].
    by apply Hall, Hlast.
Qed.

(** *** The metrics and the target that [main] selects *)

Lemma entry_tabulate d f i j :
  (i < d)%nat → (j < d)%nat → entry (tabulate d f) i j = f i j.
Proof.
  intros Hi Hj. unfold entry, tabulate.
  set (F := λ i, map (f i) (seq 0 d)).
  rewrite (nth_indep _ [] (F 0%nat))
    by (rewrite length_map, length_seq; lia).
  rewrite (map_nth F), seq_nth by lia. unfold F.
  rewrite (nth_indep _ 0 (f (0 + i)%nat 0%nat))
    by (rewrite length_map, length_seq; lia).
  by rewrite (map_nth (f (0 + i)%nat)), seq_nth by lia.
Qed.

(** Both shape metrics vanish at the identity. *)
Lemma shape_metrics_at_identity :
  (∃ μ, EvalW Driver.TMOP_Metric_002 (identity 2) = Some μ ∧ μ == 0) ∧
  (∃ μ, EvalW Driver.TMOP_Metric_302 (identity 3) = Some μ ∧ μ == 0).
Proof. split; eexists; (split; [by vm_compute|by vm_compute]). Qed.

Lemma Qsquare_nonneg (x : Q) : 0 <= x * x.
Proof.
  destruct (Qlt_le_dec x 0) as [H|H].
  - setoid_replace (x * x) with ((- x) * (- x)) using relation Qeq by ring.
    apply Qmult_le_0_compat; lra.
  - by apply Qmult_le_0_compat.
Qed.

(** The 2D shape metric is non-negative wherever it is defined. *)
Lemma metric_002_nonneg a b c d μ :
  EvalW Driver.TMOP_Metric_002 [[a; b]; [c; d]] = Some μ → 0 <= μ.
Proof.
  unfold EvalW. destruct (Qlt_le_dec 0 _) as [Hdet|]; [|done].
  intros [= <-]. cbn [det fnorm2 concat app map Qsum foldr] in *.
  assert (Hq : 1 <= (1 # 2) * (a * a + (b * b + (c * c + (d * d + 0))))
                    / (a * d - b * c)).
  { apply Qle_shift_div_l; [done|].
    assert (0 <= (a - d) * (a - d)) by apply Qsquare_nonneg.
    assert (0 <= (b + c) * (b + c)) by apply Qsquare_nonneg.
    lra. }
  revert Hq. generalize ((1 # 2) * (a * a + (b * b + (c * c + (d * d + 0))))
                         / (a * d - b * c)).
  intros u Hu. lra.
Qed.

(** The 3D shape metric without the inverse: [|T^-1|^2] is
    [|adj T|^2 / (det T)^2]. *)
Lemma metric_302_adjugate (T : Matrix) :
  fnorm2 (inv T) == fnorm2 (adj T) / (det T * det T).
Proof.
  unfold inv, fnorm2. rewrite <- concat_map, !map_map.
  induction (concat (adj T)) as [|t l IH]; cbn [map Qsum foldr].
  - unfold Qdiv. ring.
  - change (foldr Qplus 0 ?l) with (Qsum l). rewrite IH.
    unfold Qdiv. destruct (Qeq_dec (det T) 0) as [H0|H0].
    + rewrite H0. change (/ 0) with 0. change (/ (0 * 0)) with 0. ring.
    + field. done.
Qed.

(** C3 -- the metric of the integrator the Newton solver works on is
    chosen by the mesh dimension: in dimension 2 it is the 2D shape metric
    [1/2 |T|^2 / det T - 1], in dimension 3 (indeed in any dimension other
    than 2) the 3D shape metric [|T|^2 |T^-1|^2 / 9 - 1]. *)
Theorem shape_metric_by_dimension (w : Driver.World) (argv : list string)
    (solver : Driver.TMOPNewtonSolver) (x : list float) :
  Driver.NewtonSolve solver x ∈ Driver.events (Driver.main w argv) →
  let args := (Driver.Parse w argv Driver.default_options).1 in
  ∃ pmesh a integ,
    Driver.load_mesh w args = Some pmesh ∧
    Driver.oper solver = Some a ∧ Driver.domain_integrators a = [integ] ∧
    (Driver.Dimension pmesh = 2%Z →
       Driver.integ_metric integ = Driver.TMOP_Metric_002 ∧
       ∀ T, 0 < det T →
         EvalW (Driver.integ_metric integ) T
         = Some ((1 # 2) * fnorm2 T / det T - 1)) ∧
    (Driver.Dimension pmesh ≠ 2%Z →
       Driver.integ_metric integ = Driver.TMOP_Metric_302) ∧
    (Driver.Dimension pmesh = 3%Z →
       Driver.integ_metric integ = Driver.TMOP_Metric_302 ∧
       ∀ T, 0 < det T →
         EvalW (Driver.integ_metric integ) T
         = Some (fnorm2 T * fnorm2 (inv T) / 9 - 1)).
Proof.
  intros Hev. apply DriverFacts.main_integrator in Hev
    as (pmesh & a & integ & Hmesh & Ha & Hi & Hm & _).
  cbv zeta. exists pmesh, a, integ. rewrite Hm. unfold Driver.select_metric.
  split_and!; [done..| | |]; intros Hdim.
  - rewrite decide_True by done. split; [done|]. intros T HT.
    unfold EvalW. by destruct (Qlt_le_dec 0 (det T)); [|lra].
  - by rewrite decide_False.
  - rewrite decide_False by lia. split; [done|]. intros T HT.
    unfold EvalW. by destruct (Qlt_le_dec 0 (det T)); [|lra].
Qed.

(** C4 -- the target constructor of that integrator is the
    [IDEAL_SHAPE_UNIT_SIZE] variant.  Its target Jacobian is the identity
    of the requested dimension at every quadrature point of every element;
    the constructor is a function of [(d, e, q)] alone, with no state that
    a call could read or leave behind. *)
Theorem ideal_shape_unit_size_target (w : Driver.World) (argv : list string)
    (solver : Driver.TMOPNewtonSolver) (x : list float) :
  Driver.NewtonSolve solver x ∈ Driver.events (Driver.main w argv) →
  ∃ a integ,
    Driver.oper solver = Some a ∧ Driver.domain_integrators a = [integ] ∧
    Driver.target_type (Driver.integ_target integ)
      = Driver.IDEAL_SHAPE_UNIT_SIZE ∧
    ∀ d e q,
      ComputeElementTargets
        (Driver.target_type (Driver.integ_target integ)) d e q
      = Some (identity d) ∧
      ∀ i j, (i < d)%nat → (j < d)%nat →
        entry (identity d) i j = if decide (i = j) then 1 else 0.
Proof.
  intros Hev. apply DriverFacts.main_integrator in Hev
    as (pmesh & a & integ & _ & Ha & Hi & _ & Ht & _).
  exists a, integ. split_and!; [done..|]. intros d e q. rewrite Ht.
  split; [done|]. intros i j Hi' Hj. unfold identity.
  rewrite entry_tabulate by done.
  destruct (Nat.eqb_spec i j); by case_decide.
Qed.

End TmopFacts.

(** ** The statements above at work on the fixtures *)

Module Witnesses.
Import Arr Driver Fixture.

(** Finds an event in the (computed) event list of a concrete run. *)
Ltac find_event :=
  vm_compute;
  repeat first [apply list_elem_of_here | apply list_elem_of_further].

(** [newton_solver_configuration] on the run of the unit square. *)
Lemma newton_solver_configuration_witness :
  NewtonSolve square_solver square_nodes
    ∈ events (main (square_world true) []) ∧
  max_iter (newton_controls square_solver) = 200 ∧
  rel_tol (newton_controls square_solver) = 1e-10%float ∧
  abs_tol (newton_controls square_solver) = 0%float ∧
  adaptive_surf_fit square_solver = true ∧
  surf_fit_max_threshold square_solver = 1e-2%float.
Proof.
  refine ((λ H, conj H
             (DriverFacts.newton_solver_configuration _ _ _ _ H)) _).
  find_event.
Defined.

(** [inner_solver_configuration] on the run of the unit square. *)
Lemma inner_solver_configuration_witness :
  NewtonSolve square_solver square_nodes
    ∈ events (main (square_world true) []) ∧
  ∃ minres : MINRESSolver,
    prec square_solver = Some minres ∧
    max_iter (minres_controls minres) = 100 ∧
    rel_tol (minres_controls minres) = 1e-12%float ∧
    abs_tol (minres_controls minres) = 0%float.
Proof.
  refine ((λ H, conj H
             (DriverFacts.inner_solver_configuration _ _ _ _ H)) _).
  find_event.
Defined.


(** [fit_marker_per_node] on the run of the unit square: four nodes, four
    entries. *)
Lemma fit_marker_per_node_witness :
  load_mesh (square_world true) default_options = Some square_mesh ∧
  ∀ v, v ∈ history (main (square_world true) []) →
    length (fit_marker v) = 4%nat.
Proof.
  refine ((λ H, conj H
             (proj1 (DriverFacts.fit_marker_per_node
                       (square_world true) [] square_mesh H))) _).
  reflexivity.
Defined.

(** [solver_starts_from_snapshot] on the run of the unit square. *)
Lemma solver_starts_from_snapshot_witness :
  load_mesh (square_world true) default_options = Some square_mesh ∧
  ∀ v, v ∈ history (main (square_world true) []) → x0 v = square_nodes.
Proof.
  refine ((λ H, conj H
             (proj1 (DriverFacts.solver_starts_from_snapshot
                       (square_world true) [] square_mesh H))) _).
  reflexivity.
Defined.

(** [coord_target_frame] on the unit square, where the scalar DOF [i]
    belongs to component [i / 4]. *)
Lemma coord_target_frame_witness :
  fit_setup (square_world true) 2 square_mesh square_space
    (declare_fields square_space square_nodes) = Some square_fitted ∧
  length (coord_target square_fitted) = 8%nat ∧
  (∀ i, i `div` 4 ≠ 1 →
     at_ (coord_target square_fitted) i = at_ square_nodes i) ∧
  (∀ i,
     (∀ e j, 0 ≤ e < 4 → 0 ≤ j < 2 → GetBdrAttribute square_mesh e = 2 →
        at_ (GetBdrElementVDofs square_space e) (2 + j) ≠ Some i) →
     at_ (coord_target square_fitted) i = at_ square_nodes i).
Proof.
  assert (Hlayout : ∀ e j i,
            0 ≤ e < GetNBE square_mesh → 0 ≤ j < GetBEDof square_space e →
            at_ (GetBdrElementVDofs square_space e)
                (GetBEDof square_space e + j) = Some i →
            i `div` 4 = 1).
  { intros e j i He Hj.
    change (0 ≤ e < 4) in He. change (0 ≤ j < 2) in Hj.
    assert (e = 0 ∨ e = 1 ∨ e = 2 ∨ e = 3) as [->|[->|[->| ->]]] by lia.
    all: assert (j = 0 ∨ j = 1) as [->| ->] by lia.
    all: by intros [= <-]. }
  refine ((λ H, conj H _) _); [|vm_compute; reflexivity].
  destruct (DriverFacts.coord_target_frame (square_world true) 2
              square_mesh square_space square_nodes square_fitted
              (λ i, i `div` 4) H Hlayout) as (H1 & H2 & H3 & _).
  by split_and!.
Defined.

(** [shape_metric_by_dimension] on the run of the unit square, evaluated
    at a stretched element. *)
Lemma shape_metric_by_dimension_witness :
  NewtonSolve square_solver square_nodes
    ∈ events (main (square_world true) []) ∧
  ∃ a integ,
    oper square_solver = Some a ∧ domain_integrators a = [integ] ∧
    integ_metric integ = TMOP_Metric_002 ∧
    Tmop.EvalW (integ_metric integ) [[2; 0]; [0; 1]]%Q
    = Some ((1 # 2) * Tmop.fnorm2 [[2; 0]; [0; 1]]
            / Tmop.det [[2; 0]; [0; 1]] - 1)%Q.
Proof.
  refine ((λ H, conj H _) _); [|find_event].
  destruct (TmopFacts.shape_metric_by_dimension _ _ _ _ H)
    as (pmesh & a & integ & Hmesh & Ha & Hi & H2 & _).
  injection Hmesh as <-.
  destruct (H2 eq_refl) as [Hm HT].
  exists a, integ. split_and!; [done..|]. by apply HT.
Defined.

(** [ideal_shape_unit_size_target] on the run of the unit square. *)
Lemma ideal_shape_unit_size_target_witness :
  NewtonSolve square_solver square_nodes
    ∈ events (main (square_world true) []) ∧
  ∃ a integ,
    oper square_solver = Some a ∧ domain_integrators a = [integ] ∧
    target_type (integ_target integ) = IDEAL_SHAPE_UNIT_SIZE ∧
    Tmop.ComputeElementTargets (target_type (integ_target integ)) 2 0 0
    = Some [[1; 0]; [0; 1]]%Q.
Proof.
  refine ((λ H, conj H _) _); [|find_event].
  destruct (TmopFacts.ideal_shape_unit_size_target _ _ _ _ H)
    as (a & integ & Ha & Hi & Ht & HJ).
  exists a, integ. split_and!; [done..|]. apply (HJ 2%nat).
Defined.

(** *** Sample runs *)

Example square_run_returns :
  outcome (main (square_world true) []) = Returned 0 ∧
  outcome (main (square_world false) []) = Returned 1 ∧
  events (main (square_world false) []) = [PrintUsage].
Proof. by vm_compute. Qed.

(** The line search at work: from the unit square the full step and the
    half step of the second iteration would collapse or invert the
    element; the accepted iterates are (1/2, 1) and (1/4, 1). *)
Example rectangle_run :
  let r := Tmop.Mult rectangle_problem Tmop.driver_controls [1; 1]%Q in
  Tmop.terminal r = Tmop.ConvergedByFit ∧
  map (map Qred) (Tmop.accepted r) = [[1 # 2; 1]; [1 # 4; 1]]%Q ∧
  Tmop.objective rectangle_problem [0; 1]%Q 100 = None ∧
  Tmop.objective rectangle_problem [- (1 # 2); 1]%Q 100 = None.
Proof. by vm_compute. Qed.

(** A mesh that comes inverted is handed back as it is. *)
Example rectangle_run_inverted_input :
  let r := Tmop.Mult rectangle_problem Tmop.driver_controls [- (1); 1]%Q in
  Tmop.terminal r = Tmop.LineSearchFailed ∧ Tmop.accepted r = [] ∧
  Tmop.output r = [- (1); 1]%Q.
Proof. by vm_compute. Qed.

End Witnesses.

(** ** More about counted loops: where an iteration sits in the run *)

Module LoopFacts.
Import Arr ArrFacts.

Lemma foldl_bind_inv {S} (P : S → Prop) (body : Z → S → option S) l s s' :
  P s →
  (∀ k a b, k ∈ l → P a → body k a = Some b → P b) →
  foldl (λ acc i, acc ≫= body i) (Some s) l = Some s' → P s'.
Proof.
  revert s. induction l as [|i l IH]; intros s Hs Hstep; simpl.
  - by intros [= <-].
  - destruct (body i s) as [b|] eqn:Hb; simpl.
    + apply IH; [|intros k a c Hk; apply Hstep; by right].
      eapply Hstep; [by left|done..].
    + by rewrite foldl_bind_None.
Qed.

(** The loop up to iteration [i], that iteration, and the rest. *)
Lemma for_loop_split {S} n (body : Z → S → option S) s i :
  0 ≤ i < n →
  for_loop n body s
  = foldl (λ acc k, acc ≫= body k) (for_loop i body s ≫= body i)
      (seqZ (i + 1) (n - i - 1)).
Proof.
  intros Hi. unfold for_loop.
  replace n with (i + (n - i)) at 1 by lia.
  rewrite seqZ_app, foldl_app by lia.
  rewrite (seqZ_cons (0 + i)) by lia. simpl.
  by replace (Z.succ (0 + i)) with (i + 1) by lia;
     replace (Z.pred (n - i)) with (n - i - 1) by lia.
Qed.

(** An out-of-bounds access in iteration [i] stops the loop, whatever the
    earlier iterations did, as long as they kept the invariant [P]. *)
Lemma for_loop_fails {S} (P : S → Prop) n (body : Z → S → option S) s i :
  0 ≤ i < n →
  P s →
  (∀ k a b, 0 ≤ k < n → P a → body k a = Some b → P b) →
  (∀ a, P a → body i a = None) →
  for_loop n body s = None.
Proof.
  intros Hi Hs Hstep Hfail. rewrite (for_loop_split _ _ _ i) by done.
  destruct (for_loop i body s) as [a|] eqn:Ha; simpl.
  - rewrite Hfail; [apply foldl_bind_None|].
    revert Ha. apply for_loop_inv; [done|].
    intros k c d Hk. apply Hstep. lia.
  - apply foldl_bind_None.
Qed.

(** What iteration [i] establishes and the later iterations keep holds at
    the end; [P] is an invariant of the whole loop that both may use. *)
Lemma for_loop_after {S} (P Q : S → Prop) n (body : Z → S → option S)
    s s' i :
  0 ≤ i < n →
  P s →
  (∀ k a b, 0 ≤ k < n → P a → body k a = Some b → P b) →
  (∀ a b, P a → body i a = Some b → Q b) →
  (∀ k a b, i < k < n → P a → Q a → body k a = Some b → Q b) →
  for_loop n body s = Some s' → Q s'.
Proof.
  intros Hi Hs Hstep Hest Hkeep. rewrite (for_loop_split _ _ _ i) by done.
  destruct (for_loop i body s) as [a|] eqn:Ha; simpl;
    [|by rewrite foldl_bind_None].
  assert (HPa : P a).
  { revert Ha. apply for_loop_inv; [done|].
    intros k c d Hk. apply Hstep. lia. }
  destruct (body i a) as [b|] eqn:Hb; [|by rewrite foldl_bind_None].
  intros Hrest.
  apply (foldl_bind_inv (λ c, P c ∧ Q c) _ _ _ _ ) in Hrest; [tauto| |].
  - split; [by eapply (Hstep i a b)|by eapply Hest].
  - intros k c d Hk [HPc HQc] Hd. apply elem_of_seqZ in Hk.
    split; [eapply (Hstep k c d); [lia|done..]|].
    eapply (Hkeep k c d); [lia|done..].
Qed.

End LoopFacts.

(** ** More about the marking loop and the run of [main] *)

Module DriverExtras.
Import Arr ArrFacts LoopFacts Driver DriverFacts.

(** The pass of the loop body for DOF [j] of boundary element [e]. *)
Local Abbreviation pass w dim pmesh pfes_mesh e j :=
  (fit_node w dim (GetBEDof pfes_mesh e) (GetBdrAttribute pmesh e)
     (GetBdrElementVDofs pfes_mesh e) j).

(** [(e', j')] comes after [(e, j)] in the order of the two nested loops. *)
Local Abbreviation later e j e' j' := (e < e' ∨ (e' = e ∧ j < j'))%Z.

(** What the pass [(e, j)] establishes and every later pass keeps holds
    when the loops are over. *)
Lemma fit_setup_after w dim pmesh pfes_mesh (P Q : Vars → Prop) v v' e j :
  0 ≤ e < GetNBE pmesh → 0 ≤ j < GetBEDof pfes_mesh e →
  P v →
  (∀ e' j' a b,
     0 ≤ e' < GetNBE pmesh → 0 ≤ j' < GetBEDof pfes_mesh e' → P a →
     pass w dim pmesh pfes_mesh e' j' a = Some b → P b) →
  (∀ a b, P a → pass w dim pmesh pfes_mesh e j a = Some b → Q b) →
  (∀ e' j' a b,
     0 ≤ e' < GetNBE pmesh → 0 ≤ j' < GetBEDof pfes_mesh e' →
     later e j e' j' → P a → Q a →
     pass w dim pmesh pfes_mesh e' j' a = Some b → Q b) →
  fit_setup w dim pmesh pfes_mesh v = Some v' → Q v'.
Proof.
  intros He Hj Hv HP Hest Hkeep. unfold fit_setup.
  apply (for_loop_after P Q _ _ _ _ e); [done..| | |].
  - intros e' a b He' Ha. unfold fit_bdr_element.
    apply for_loop_inv; [done|]. intros j' a' b' Hj'. by apply HP.
  - intros a b Ha. unfold fit_bdr_element.
    apply (for_loop_after P Q _ _ _ _ j); [done..| | |].
    + intros j' a' b' Hj'. by apply HP.
    + done.
    + intros j' a' b' Hj'. apply Hkeep; [done|lia|]. right. lia.
  - intros e' a b He' Ha Hq. unfold fit_bdr_element. intros Hb.
    apply (for_loop_inv (λ c, P c ∧ Q c)) in Hb; [tauto|done|].
    intros j' a' b' Hj' [HPa HQa] Hb'.
    split; [apply (HP e' j' a' b'); [lia|done..]|].
    apply (Hkeep e' j' a' b'); [lia|done| |done..]. left. lia.
Qed.

(** A pass that cannot run stops the two loops, under an invariant. *)
Lemma fit_setup_fails w dim pmesh pfes_mesh (P : Vars → Prop) v e j :
  0 ≤ e < GetNBE pmesh → 0 ≤ j < GetBEDof pfes_mesh e →
  P v →
  (∀ e' j' a b,
     0 ≤ e' < GetNBE pmesh → 0 ≤ j' < GetBEDof pfes_mesh e' → P a →
     pass w dim pmesh pfes_mesh e' j' a = Some b → P b) →
  (∀ a, P a → pass w dim pmesh pfes_mesh e j a = None) →
  fit_setup w dim pmesh pfes_mesh v = None.
Proof.
  intros He Hj Hv HP Hfail. unfold fit_setup.
  apply (for_loop_fails P _ _ _ e); [done..| |].
  - intros e' a b He' Ha. unfold fit_bdr_element.
    apply for_loop_inv; [done|]. intros j' a' b' Hj'. by apply HP.
  - intros a Ha. unfold fit_bdr_element.
    apply (for_loop_fails P _ _ _ j); [done..| |done].
    intros j' a' b' Hj'. by apply HP.
Qed.

(** The invariant the edge cases need: [coord] is not written and the
    marker keeps its [GetNDofs()] entries. *)
Definition shape_kept (pfes_mesh : FESpace) (nodes : list float) (a : Vars)
  : Prop :=
  coord a = nodes ∧
  length (fit_marker a) = Z.to_nat (GetNDofs pfes_mesh).

Lemma shape_kept_pass w dim nd attr vdofs j pfes_mesh nodes a b :
  shape_kept pfes_mesh nodes a →
  fit_node w dim nd attr vdofs j a = Some b →
  shape_kept pfes_mesh nodes b.
Proof.
  intros [Hc Hm] Hb. apply fit_node_inv in Hb
    as (? & ? & ? & ? & ? & ? & _ & _ & _ & _ & _ & Hcb & _ & Hm' & _).
  apply put_length in Hm'. split; congruence.
Qed.

(** X2 -- an access out of bounds in some pass makes the whole loop fail:
    a boundary table that is too short for its x, y (and, off dimension 2,
    z) block, an x index that is not below [GetNDofs()] (the marker has no
    more entries), or a table entry outside the coordinate vector. *)
Theorem fit_setup_out_of_bounds (w : World) (dim : Z) (pmesh : Mesh)
    (pfes_mesh : FESpace) (nodes : list float) (e j : Z) :
  let nd := GetBEDof pfes_mesh e in
  let vdofs := GetBdrElementVDofs pfes_mesh e in
  0 ≤ e < GetNBE pmesh → 0 ≤ j < nd →
  at_ vdofs j = None ∨ at_ vdofs (nd + j) = None ∨
  (dim ≠ 2 ∧ at_ vdofs (2 * nd + j) = None) ∨
  (∃ j_x, at_ vdofs j = Some j_x ∧ ¬ 0 ≤ j_x < GetNDofs pfes_mesh) ∨
  (∃ k, (at_ vdofs j = Some k ∨ at_ vdofs (nd + j) = Some k ∨
         (dim ≠ 2 ∧ at_ vdofs (2 * nd + j) = Some k)) ∧
        at_ nodes k = None) →
  fit_setup w dim pmesh pfes_mesh (declare_fields pfes_mesh nodes) = None.
Proof.
  cbv zeta. intros He Hj Hbad.
  apply (fit_setup_fails _ _ _ _ (shape_kept pfes_mesh nodes) _ e j);
    [done..| | |].
  { split; [done|]. simpl. apply length_replicate. }
  { intros e' j' a b _ _. apply shape_kept_pass. }
  intros a [Hc Hm].
  destruct (pass w dim pmesh pfes_mesh e j a) as [b|] eqn:Hb; [|done].
  exfalso. apply fit_node_inv in Hb
    as (j_x & j_y & x & y & z & t & Hjx & Hjy & Hx & Hy & Hz & _ & _ & Hput
        & _).
  rewrite Hc in Hx, Hy. unfold dof_z in Hz. rewrite Hc in Hz.
  destruct Hbad as [H|[H|[[Hd H]|[(k & Hk & H)|(k & Hk & H)]]]].
  - congruence.
  - congruence.
  - rewrite decide_False, H in Hz by done. discriminate Hz.
  - apply put_Some in Hput as [Hr _]. rewrite Hm in Hr.
    assert (k = j_x) as -> by congruence. lia.
  - destruct Hk as [Hk|[Hk|[Hd Hk]]].
    + assert (k = j_x) as -> by congruence. congruence.
    + assert (k = j_y) as -> by congruence. congruence.
    + rewrite decide_False, Hk, bind_Some_l in Hz by done. congruence.
Qed.

(** *** Which nodes are marked *)

Lemma fit_node_marks w dim nd attr vdofs j a b i :
  fit_node w dim nd attr vdofs j a = Some b →
  at_ vdofs j = Some i ∨ at_ (fit_marker a) i = Some true →
  at_ (fit_marker b) i = Some true.
Proof.
  intros Hb Hi. apply fit_node_inv in Hb
    as (j_x & ? & ? & ? & ? & ? & Hjx & _ & _ & _ & _ & _ & _ & Hput & _).
  destruct (decide (i = j_x)) as [->|Hne]; [by eapply put_at_eq|].
  rewrite (put_at_ne _ _ _ _ _ Hput Hne).
  destruct Hi as [Hi|Hi]; [congruence|done].
Qed.

(** Every pass marks the node of its DOF, and no pass unmarks a node. *)
Lemma fit_setup_marks w dim pmesh pfes_mesh v v' e j i :
  fit_setup w dim pmesh pfes_mesh v = Some v' →
  0 ≤ e < GetNBE pmesh → 0 ≤ j < GetBEDof pfes_mesh e →
  at_ (GetBdrElementVDofs pfes_mesh e) j = Some i →
  at_ (fit_marker v') i = Some true.
Proof.
  intros Hfit He Hj Hi. revert Hfit.
  apply (fit_setup_after _ _ _ _ (λ _, True)
           (λ a, at_ (fit_marker a) i = Some true) _ _ e j); try done.
  - intros a b _ Hb. eapply fit_node_marks; eauto.
  - intros e' j' a b _ _ _ _ Ha Hb. eapply fit_node_marks; eauto.
Qed.

(** X3 -- after the loop the marker is set exactly at the x-component
    entries of the DOFs that the boundary elements list: every pass marks
    the node of its DOF, nothing else is ever marked, and no mark is taken
    back.  The marker keeps its [GetNDofs()] entries. *)
Theorem fit_marker_marks_boundary_nodes (w : World) (dim : Z) (pmesh : Mesh)
    (pfes_mesh : FESpace) (nodes : list float) (v : Vars) :
  fit_setup w dim pmesh pfes_mesh (declare_fields pfes_mesh nodes) = Some v →
  (∀ i, at_ (fit_marker v) i = Some true ↔
        ∃ e j, 0 ≤ e < GetNBE pmesh ∧ 0 ≤ j < GetBEDof pfes_mesh e ∧
               at_ (GetBdrElementVDofs pfes_mesh e) j = Some i) ∧
  (∀ i, 0 ≤ i < GetNDofs pfes_mesh → is_Some (at_ (fit_marker v) i)).
Proof.
  intros Hfit. split.
  - intros i. split.
    + revert Hfit.
      apply (fit_setup_inv _ _ _ _
        (λ a, at_ (fit_marker a) i = Some true →
              ∃ e j, 0 ≤ e < GetNBE pmesh ∧ 0 ≤ j < GetBEDof pfes_mesh e ∧
                     at_ (GetBdrElementVDofs pfes_mesh e) j = Some i)).
      * simpl. intros [_ Hi]%at_Some. by apply lookup_replicate in Hi as [? _].
      * intros e j a b He Hj Ha Hb Hi. apply fit_node_inv in Hb
          as (j_x & ? & ? & ? & ? & ? & Hjx & _ & _ & _ & _ & _ & _ & Hput
              & _).
        destruct (decide (i = j_x)) as [->|Hne]; [by exists e, j|].
        apply Ha. by rewrite <- (put_at_ne _ _ _ _ _ Hput Hne).
    + intros (e & j & He & Hj & Hi). by eapply fit_setup_marks.
  - intros i Hi. apply at_in_range.
    apply fit_setup_lengths in Hfit as (-> & _). simpl.
    rewrite length_replicate. lia.
Qed.

(** X4 -- the grid function shown in the first visualization is the
    indicator of the marker: 1 at the entries the marker has set, 0 at all
    its other entries, in particular at all y and z components. *)
Theorem fit_marker_vis_gf_indicates_marker (w : World) (dim : Z)
    (pmesh : Mesh) (pfes_mesh : FESpace) (nodes : list float) (v : Vars) :
  fit_setup w dim pmesh pfes_mesh (declare_fields pfes_mesh nodes) = Some v →
  ∀ i, 0 ≤ i < GetVSize pfes_mesh →
    at_ (fit_marker_vis_gf v) i
    = Some (if decide (at_ (fit_marker v) i = Some true)
            then 1%float else 0%float).
Proof.
  intros Hfit i Hi.
  destruct (at_in_range (fit_marker_vis_gf v) i) as [x Hx].
  { apply fit_setup_lengths in Hfit as (_ & -> & _). simpl.
    rewrite length_replicate. lia. }
  rewrite Hx. f_equal. revert x Hx. revert Hfit.
  apply (fit_setup_inv w dim pmesh pfes_mesh
    (λ a, ∀ x, at_ (fit_marker_vis_gf a) i = Some x →
               x = if decide (at_ (fit_marker a) i = Some true)
                   then 1%float else 0%float)
    (declare_fields pfes_mesh nodes) v).
  - simpl. intros x [_ Hx]%at_Some. apply lookup_replicate in Hx as [-> _].
    rewrite decide_False; [done|].
    intros [_ Hm]%at_Some. by apply lookup_replicate in Hm as [? _].
  - intros e j a b _ _ Ha Hb x Hx. apply fit_node_inv in Hb
      as (j_x & ? & ? & ? & ? & ? & _ & _ & _ & _ & _ & _ & _ & Hm & Hg & _).
    destruct (decide (i = j_x)) as [->|Hne].
    + rewrite (put_at_eq _ _ _ _ Hg) in Hx.
      rewrite (put_at_eq _ _ _ _ Hm), decide_True by done. congruence.
    + rewrite (put_at_ne _ _ _ _ _ Hg Hne) in Hx.
      rewrite (put_at_ne _ _ _ _ _ Hm Hne). by apply Ha.
Qed.

(** *** Which targets are written *)

(** X5 -- the last pass that writes an entry of [coord_target] decides it:
    when the pass for DOF [j] of boundary element [e] writes entry [i] and
    no later pass does, the entry ends up as the boundary profile at the
    initial position of the node if the attribute of [e] is 2, and as the
    initial y coordinate otherwise.  Earlier writes to the entry are
    lost. *)
Theorem coord_target_last_write (w : World) (dim : Z) (pmesh : Mesh)
    (pfes_mesh : FESpace) (nodes : list float) (v : Vars) (e j i : Z) :
  let nd := GetBEDof pfes_mesh e in
  let vdofs := GetBdrElementVDofs pfes_mesh e in
  fit_setup w dim pmesh pfes_mesh (declare_fields pfes_mesh nodes) = Some v →
  0 ≤ e < GetNBE pmesh → 0 ≤ j < nd →
  at_ vdofs (nd + j) = Some i →
  (∀ e' j',
     0 ≤ e' < GetNBE pmesh → 0 ≤ j' < GetBEDof pfes_mesh e' →
     later e j e' j' →
     at_ (GetBdrElementVDofs pfes_mesh e') (GetBEDof pfes_mesh e' + j')
       ≠ Some i) →
  ∃ j_x x y z,
    at_ vdofs j = Some j_x ∧ at_ nodes j_x = Some x ∧ at_ nodes i = Some y ∧
    dof_z dim (declare_fields pfes_mesh nodes) nd vdofs j = Some z ∧
    at_ (coord_target v) i
    = Some (if decide (GetBdrAttribute pmesh e = 2)
            then boundary_profile w x y z else y).
Proof.
  cbv zeta. intros Hfit He Hj Hi Hlast. revert Hfit.
  apply (fit_setup_after w dim pmesh pfes_mesh (shape_kept pfes_mesh nodes)
    (λ a, ∃ j_x x y z,
       at_ (GetBdrElementVDofs pfes_mesh e) j = Some j_x ∧
       at_ nodes j_x = Some x ∧ at_ nodes i = Some y ∧
       dof_z dim (declare_fields pfes_mesh nodes) (GetBEDof pfes_mesh e)
         (GetBdrElementVDofs pfes_mesh e) j = Some z ∧
       at_ (coord_target a) i
       = Some (if decide (GetBdrAttribute pmesh e = 2)
               then boundary_profile w x y z else y))
    (declare_fields pfes_mesh nodes) v e j);
    [done..| | | |].
  - split; [done|]. simpl. apply length_replicate.
  - intros e' j' a b _ _. apply shape_kept_pass.
  - intros a b [Hc _] Hb. apply fit_node_inv in Hb
      as (j_x & j_y & x & y & z & t & Hjx & Hjy & Hx & Hy & Hz & _ & _ & _
          & _ & Hput & Ht2 & Ht).
    assert (j_y = i) as -> by congruence.
    exists j_x, x, y, z. rewrite Hc in Hx, Hy.
    assert (Hz' : dof_z dim (declare_fields pfes_mesh nodes)
                    (GetBEDof pfes_mesh e) (GetBdrElementVDofs pfes_mesh e) j
                  = Some z) by (rewrite <- Hz; unfold dof_z; by rewrite Hc).
    split_and!; [done..|]. rewrite (put_at_eq _ _ _ _ Hput). f_equal.
    destruct (decide (GetBdrAttribute pmesh e = 2)); auto.
  - intros e' j' a b He' Hj' Hlater _ (j_x & x & y & z & Ha) Hb.
    apply fit_node_inv in Hb
      as (? & j_y & ? & ? & ? & ? & _ & Hjy & _ & _ & _ & _ & _ & _ & _
          & Hput & _).
    exists j_x, x, y, z. rewrite (put_at_ne _ _ _ _ _ Hput); [done|].
    intros ->. by apply (Hlast e' j' He' Hj' Hlater).
Qed.

(** X6 -- targets move only at marked nodes: an entry of [coord_target]
    that differs from the initial coordinate is the y component of a DOF of
    a boundary element with attribute 2, and the marker is set at the x
    component of that DOF. *)
Theorem moved_targets_are_marked (w : World) (dim : Z) (pmesh : Mesh)
    (pfes_mesh : FESpace) (nodes : list float) (v : Vars) (i : Z) :
  fit_setup w dim pmesh pfes_mesh (declare_fields pfes_mesh nodes) = Some v →
  at_ (coord_target v) i ≠ at_ nodes i →
  ∃ e j j_x,
    (0 ≤ e < GetNBE pmesh ∧ 0 ≤ j < GetBEDof pfes_mesh e) ∧
    GetBdrAttribute pmesh e = 2 ∧
    at_ (GetBdrElementVDofs pfes_mesh e) (GetBEDof pfes_mesh e + j) = Some i ∧
    at_ (GetBdrElementVDofs pfes_mesh e) j = Some j_x ∧
    at_ (fit_marker v) j_x = Some true.
Proof.
  intros Hfit Hmoved.
  assert (Hw : coord v = nodes ∧
    (at_ (coord_target v) i = at_ nodes i ∨
     ∃ e j j_x,
       (0 ≤ e < GetNBE pmesh ∧ 0 ≤ j < GetBEDof pfes_mesh e) ∧
       GetBdrAttribute pmesh e = 2 ∧
       at_ (GetBdrElementVDofs pfes_mesh e) (GetBEDof pfes_mesh e + j)
         = Some i ∧
       at_ (GetBdrElementVDofs pfes_mesh e) j = Some j_x)).
  { generalize Hfit.
    apply (fit_setup_inv w dim pmesh pfes_mesh
      (λ a, coord a = nodes ∧
            (at_ (coord_target a) i = at_ nodes i ∨
             ∃ e j j_x,
               (0 ≤ e < GetNBE pmesh ∧ 0 ≤ j < GetBEDof pfes_mesh e) ∧
               GetBdrAttribute pmesh e = 2 ∧
               at_ (GetBdrElementVDofs pfes_mesh e)
                   (GetBEDof pfes_mesh e + j) = Some i ∧
               at_ (GetBdrElementVDofs pfes_mesh e) j = Some j_x))
      (declare_fields pfes_mesh nodes) v); [by split; [|left]|].
    intros e j a b He Hj [Hc Ha] Hb. apply fit_node_inv in Hb
      as (j_x & j_y & x & y & z & t & Hjx & Hjy & _ & Hy & _ & Hcb & _ & _
          & _ & Hput & _ & Ht).
    split; [congruence|]. destruct (decide (i = j_y)) as [->|Hne].
    - destruct (decide (GetBdrAttribute pmesh e = 2)) as [Hattr|Hattr].
      + right. by exists e, j, j_x.
      + left. by rewrite (put_at_eq _ _ _ _ Hput), (Ht Hattr), <- Hy, Hc.
    - by rewrite (put_at_ne _ _ _ _ _ Hput Hne). }
  destruct Hw as [_ Hw].
  destruct Hw as [|(e & j & j_x & [He Hj] & Hattr & Hi & Hjx)]; [done|].
  exists e, j, j_x. split; [done|]. split_and!; try done.
  by eapply fit_setup_marks.
Qed.

(** *** The run of [main] *)

(** X7 -- only rank 0 prints.  It prints the usage exactly when parsing has
    failed (and the run returns 1), and the options, as parsed, exactly
    when parsing has succeeded; every other rank prints nothing. *)
Theorem only_rank_zero_prints (w : World) (argv : list string) :
  let parsed := Parse w argv default_options in
  let run := main w argv in
  ((PrintUsage ∈ events run ∨ ∃ a, PrintOptions a ∈ events run)
   ↔ WorldRank w = 0) ∧
  (PrintUsage ∈ events run ↔ WorldRank w = 0 ∧ parsed.2 = false) ∧
  (∀ a, PrintOptions a ∈ events run
        ↔ WorldRank w = 0 ∧ parsed.2 = true ∧ a = parsed.1).
Proof.
  cbv zeta. run_main.
  all: destruct (decide (WorldRank w = 0)) as [Hr|Hr]; simpl.
  all: repeat setoid_rewrite elem_of_cons;
       repeat setoid_rewrite elem_of_nil.
  all: split_and!; try intros a; split.
  all: try (intros [Hev|[a' Hev]]); try (intros (Hr0 & Hp & ->));
       try (intros [Hr0 Hp]); try intros Hev.
  all: repeat match goal with H : _ ∨ _ |- _ => destruct H end.
  all: try done; try discriminate.
  all: try (match goal with H : PrintOptions _ = PrintOptions _ |- _ =>
              by injection H as -> end).
  all: try (by left); try (by left; left); try (right; eexists; by left).
Qed.

(** X8 -- the final mesh is shown exactly when the run returns 0, and what
    is shown then is the solver's result: the solver was called once, on
    an empty right-hand side, and the nodes of the mesh shown are obtained
    from the vector it returned; they are the final content of [coord],
    while [x0], [coord_target] and the marker are as the solver found
    them. *)
Theorem final_mesh_is_solver_result (w : World) (argv : list string) :
  let args := (Parse w argv default_options).1 in
  let run := main w argv in
  ((∃ t m, VisualizeMesh t m ∈ events run) ↔ outcome run = Returned 0) ∧
  (∀ t m, VisualizeMesh t m ∈ events run →
     ∃ pmesh solver x x' v4 v5,
       load_mesh w args = Some pmesh ∧
       omap (λ ev, match ev with
                   | NewtonSolve s y => Some (s, y)
                   | _ => None
                   end) (events run) = [(solver, x)] ∧
       Mult w solver [] x = Some x' ∧
       t = "Final mesh" ∧
       m = SetFromTrueVector w (mesh_space w args pmesh) x' ∧
       history run !! 3%nat = Some v4 ∧
       List.last (history run) v4 = v5 ∧
       coord v5 = m ∧ x0 v5 = x0 v4 ∧
       coord_target v5 = coord_target v4 ∧ fit_marker v5 = fit_marker v4).
Proof.
  cbv zeta. run_main; split.
  all: try (split; [intros (t & m & Hev); by which_event Hev|done]).
  all: try (intros t m Hev; by which_event Hev).
  - split; [done|]. intros _. eexists _, _.
    rewrite !elem_of_app, !elem_of_cons. eauto.
  - intros t m Hev. which_event Hev; injection Hev as -> ->.
    all: eexists pmesh, _, _, x', _, _; split_and!; try done.
    all: reflexivity.
Qed.

(** X9 -- what the solver works on: its operator is a form on the nodal
    space of the mesh with a single integrator, whose surface fitting uses
    the target field and the marker exactly as the marking loop has left
    them, with weight 100; the solver's print level is 1. *)
Theorem surface_fitting_handoff (w : World) (argv : list string)
    (solver : TMOPNewtonSolver) (x : list float) :
  NewtonSolve solver x ∈ events (main w argv) →
  let args := (Parse w argv default_options).1 in
  ∃ pmesh v2 integ,
    let pfes_mesh := mesh_space w args pmesh in
    load_mesh w args = Some pmesh ∧
    fit_setup w (Dimension pmesh) pmesh pfes_mesh
      (declare_fields pfes_mesh (NodalCoords w pmesh pfes_mesh)) = Some v2 ∧
    oper solver = Some (mkForm pfes_mesh [integ]) ∧
    surf_fit integ
      = Some (mkSurfaceFitting (coord_target v2) (fit_marker v2) 100%float) ∧
    print_level (newton_controls solver) = 1.
Proof.
  intros Hev. apply main_solve_inv in Hev as (pmesh & v2 & Hev).
  cbv zeta in *. destruct Hev as (Hmesh & Hfit & -> & _).
  by eexists pmesh, v2, _.
Qed.

End DriverExtras.

(** ** The additional statements at work on the fixtures *)

Module ExtraWitnesses.
Import Arr Driver Fixture.

(** The boundary tables of the unit square are in bounds. *)
Lemma fit_setup_total_witness :
  is_Some (fit_setup (square_world true) 2 square_mesh square_space
             (declare_fields square_space square_nodes)).
Proof.
  apply DriverFacts.fit_setup_total.
  - change (4 ≤ 8). lia.
  - intros e j He Hj. cbv zeta.
    change (0 ≤ e < 4) in He. change (0 ≤ j < 2) in Hj.
    assert (e = 0 ∨ e = 1 ∨ e = 2 ∨ e = 3) as [->|[->|[->| ->]]] by lia.
    all: assert (j = 0 ∨ j = 1) as [->| ->] by lia.
    all: eexists _, _; split_and!; try reflexivity; try done.
Defined.

(** With interleaved DOFs the second pass of boundary element 1 would mark
    entry 4 of a marker that has four entries. *)
Lemma fit_setup_out_of_bounds_witness :
  fit_setup (square_world true) 2 square_mesh interleaved_space
    (declare_fields interleaved_space interleaved_nodes) = None.
Proof.
  apply (DriverExtras.fit_setup_out_of_bounds (square_world true) 2
           square_mesh interleaved_space interleaved_nodes 1 1).
  - change (0 ≤ 1 < 4). lia.
  - change (0 ≤ 1 < 2). lia.
  - right. right. right. left. exists 4. split; [reflexivity|].
    change (¬ 0 ≤ 4 < 4). lia.
Defined.

Lemma square_fit_setup :
  fit_setup (square_world true) 2 square_mesh square_space
    (declare_fields square_space square_nodes) = Some square_fitted.
Proof. vm_compute. reflexivity. Defined.

Lemma slab_fit_setup :
  fit_setup slab_world 2 slab_mesh slab_space
    (declare_fields slab_space slab_nodes) = Some slab_fitted.
Proof. vm_compute. reflexivity. Defined.

(** On the unit square every node is a boundary node, and is marked. *)
Lemma fit_marker_marks_boundary_nodes_witness :
  fit_setup (square_world true) 2 square_mesh square_space
    (declare_fields square_space square_nodes) = Some square_fitted ∧
  ∀ i, at_ (fit_marker square_fitted) i = Some true ↔
       ∃ e j, 0 ≤ e < 4 ∧ 0 ≤ j < 2 ∧
              at_ (GetBdrElementVDofs square_space e) j = Some i.
Proof.
  exact (conj square_fit_setup
           (proj1 (DriverExtras.fit_marker_marks_boundary_nodes
                     (square_world true) 2 square_mesh square_space
                     square_nodes square_fitted square_fit_setup))).
Defined.

(** On the unit square the field shown is 1 on the four x entries. *)
Lemma fit_marker_vis_gf_indicates_marker_witness :
  fit_setup (square_world true) 2 square_mesh square_space
    (declare_fields square_space square_nodes) = Some square_fitted ∧
  ∀ i, 0 ≤ i < 8 →
    at_ (fit_marker_vis_gf square_fitted) i
    = Some (if decide (at_ (fit_marker square_fitted) i = Some true)
            then 1%float else 0%float).
Proof.
  exact (conj square_fit_setup
           (DriverExtras.fit_marker_vis_gf_indicates_marker
              (square_world true) 2 square_mesh square_space
              square_nodes square_fitted square_fit_setup)).
Defined.

(** On the slab the bottom edge (element 1) is the last to write the y
    target of node 0, so that target is the profile at (0, 1/4). *)
Lemma coord_target_last_write_witness :
  ∃ j_x x y z,
    at_ (GetBdrElementVDofs slab_space 1) 0 = Some j_x ∧
    at_ slab_nodes j_x = Some x ∧ at_ slab_nodes 4 = Some y ∧
    dof_z 2 (declare_fields slab_space slab_nodes) 2
      (GetBdrElementVDofs slab_space 1) 0 = Some z ∧
    at_ (coord_target slab_fitted) 4
    = Some (if decide (GetBdrAttribute slab_mesh 1 = 2)
            then boundary_profile slab_world x y z else y).
Proof.
  apply (DriverExtras.coord_target_last_write slab_world 2 slab_mesh
           slab_space slab_nodes slab_fitted 1 0 4 slab_fit_setup).
  - change (0 ≤ 1 < 4). lia.
  - change (0 ≤ 0 < 2). lia.
  - reflexivity.
  - intros e' j' He' Hj' Hlater.
    change (0 ≤ e' < 4) in He'. change (0 ≤ j' < 2) in Hj'.
    assert (e' = 0 ∨ e' = 1 ∨ e' = 2 ∨ e' = 3) as [->|[->|[->| ->]]] by lia.
    all: assert (j' = 0 ∨ j' = 1) as [->| ->] by lia.
    all: first [lia | by vm_compute].
Defined.

(** On the slab the y target of node 0 has moved from 1/4 to 0. *)
Lemma moved_targets_are_marked_witness :
  ∃ e j j_x,
    (0 ≤ e < 4 ∧ 0 ≤ j < 2) ∧
    GetBdrAttribute slab_mesh e = 2 ∧
    at_ (GetBdrElementVDofs slab_space e) (2 + j) = Some 4 ∧
    at_ (GetBdrElementVDofs slab_space e) j = Some j_x ∧
    at_ (fit_marker slab_fitted) j_x = Some true.
Proof.
  apply (DriverExtras.moved_targets_are_marked slab_world 2 slab_mesh
           slab_space slab_nodes slab_fitted 4 slab_fit_setup).
  by vm_compute.
Defined.

Lemma surface_fitting_handoff_witness :
  NewtonSolve square_solver square_nodes
    ∈ events (main (square_world true) []) ∧
  ∃ integ,
    oper square_solver = Some (mkForm square_space [integ]) ∧
    surf_fit integ
      = Some (mkSurfaceFitting (coord_target square_fitted)
                (fit_marker square_fitted) 100%float) ∧
    print_level (newton_controls square_solver) = 1.
Proof.
  refine ((λ H, conj H _) _); [|Witnesses.find_event].
  destruct (DriverExtras.surface_fitting_handoff _ _ _ _ H)
    as (pmesh & v2 & integ & Hmesh & Hfit & Ho & Hs & Hp).
  injection Hmesh as <-.
  injection (eq_trans (eq_sym Hfit) square_fit_setup) as ->.
  exists integ. split_and!; [exact Ho|exact Hs|exact Hp].
Defined.

End ExtraWitnesses.
